(** * Version-resolution engine of the semver executor

    A shallow embedding of
    [packages/semver/src/executors/version/utils/try-bump.ts]
    and the properties of its release orchestrator [tryBump], its bump
    calculators [_semverBump] and [_manualBump], its version window resolver
    [getProjectVersion] and its dependency aggregator
    [_getDependencyVersions]. *)

From Stdlib Require Import String Ascii List Bool Arith NArith Lia.
From Stdlib Require Import DecimalString.
From Stdlib Require DecimalFacts DecimalN.
Import ListNotations.
Local Open Scope string_scope.

(** ** Data model *)

(** [ReleaseIdentifier] of [../schema].
    Modelled from the spec: the type declaration is not part of the file;
    the spec lists [major | minor | patch | premajor | preminor | prepatch |
    prerelease]. *)
Inductive ReleaseIdentifier : Type :=
  | major | minor | patch | premajor | preminor | prepatch | prerelease.

(** The [releaseType] field of the answer of [conventional-recommended-bump]:
    ["major" | "minor" | "patch"] (or undefined, an [option]). *)
Inductive Recommendation : Type :=
  | recommend_major | recommend_minor | recommend_patch.

Definition release_name (r : ReleaseIdentifier) : string :=
  match r with
  | major => "major" | minor => "minor" | patch => "patch"
  | premajor => "premajor" | preminor => "preminor" | prepatch => "prepatch"
  | prerelease => "prerelease"
  end.

(** A recommended category used as it is. *)
Definition plain (c : Recommendation) : ReleaseIdentifier :=
  match c with
  | recommend_major => major
  | recommend_minor => minor
  | recommend_patch => patch
  end.

(** The template [`pre${recommendedReleaseType}`]. *)
Definition pre (c : Recommendation) : ReleaseIdentifier :=
  match c with
  | recommend_major => premajor
  | recommend_minor => preminor
  | recommend_patch => prepatch
  end.

(** A prerelease identifier of a parsed version: a number or a string. *)
Inductive Identifier : Type :=
  | Num (n : N)
  | Alnum (s : string).

(** The [SemVer] object of the [semver] package, as far as the code reads
    it: [_semverBump] looks at [prerelease.length]. *)
Record SemVer : Type := mkSemVer {
  sv_major : N;
  sv_minor : N;
  sv_patch : N;
  sv_prerelease : list Identifier;
  sv_build : list string
}.

Inductive VersionKind : Type := project | dependency.

Module Version.

(** [Version] of [../version]: the object literals of the file build
    [{ type, version, dependencyName }]. *)
Record t : Type := make {
  type : VersionKind;
  version : option string;
  dependencyName : option string
}.

End Version.

Module NewVersion.

Record t : Type := make {
  version : string;
  previousVersion : string;
  dependencyUpdates : list Version.t
}.

End NewVersion.

Record DependencyRoot : Type := mkDependencyRoot {
  path : string;
  name : string
}.

Record LogEntry : Type := mkLogEntry {
  step : string;
  level : string;
  message : string;
  log_projectName : string
}.

Definition initialVersion : string := "0.0.0".

(** ** Observables

    Every observable of the file emits one value. The only effect the code
    has besides calling its collaborators is [_logStep]; an observable is
    modelled by the value it emits and the log entries written on the way.
    [of] is [ret], [switchMap] is [bind], [map] is [fmap] and [forkJoin]
    runs its members in order and collects their values. The file handles
    one failure, that of the tag lookup; a failure of another collaborator
    ends the observable with that error and is not part of the model, which
    describes the runs in which those collaborators answer. *)

Definition Observable (A : Type) : Type := (A * list LogEntry)%type.

Definition ret {A} (a : A) : Observable A := (a, []).

Definition bind {A B} (m : Observable A) (f : A -> Observable B) : Observable B :=
  let (a, l1) := m in
  let (b, l2) := f a in
  (b, (l1 ++ l2)%list).

Definition fmap {A B} (f : A -> B) (m : Observable A) : Observable B :=
  bind m (fun a => ret (f a)).

Definition _logStep (e : LogEntry) : Observable unit := (tt, [e]).

Definition emitted {A} (m : Observable A) : A := fst m.
Definition logged {A} (m : Observable A) : list LogEntry := snd m.

Declare Scope observable_scope.
Delimit Scope observable_scope with obs.
Notation "x <- m ;; k" := (bind m (fun x => k))
  (at level 61, m at next level, right associativity) : observable_scope.
Notation "m ;;; k" := (bind m (fun _ => k))
  (at level 61, right associativity) : observable_scope.
Local Open Scope observable_scope.

(** [forkJoin] over an array of observables; on the empty array it
    completes without a value and [defaultIfEmpty([])] supplies [[]]. *)
Fixpoint forkJoin {A} (ms : list (Observable A)) : Observable (list A) :=
  match ms with
  | [] => ret []
  | m :: ms' => a <- m ;; rest <- forkJoin ms' ;; ret (a :: rest)
  end.

(** ** JavaScript truthiness of the values the code tests *)

Definition truthy_string (s : string) : bool := negb (s =? "").

Definition truthy (v : option string) : bool :=
  match v with
  | Some s => truthy_string s
  | None => false
  end.

Definition truthy_flag (b : option bool) : bool :=
  match b with
  | Some true => true
  | _ => false
  end.

(** [v || d] on a [string | null] *)
Definition or_else (v : option string) (d : string) : string :=
  match v with
  | Some s => if truthy_string s then s else d
  | None => d
  end.

(** [version ? make(version) : null] on a [string | null] *)
Definition if_truthy {A} (version : option string) (make : string -> A) : option A :=
  match version with
  | Some v => if truthy_string v then Some (make v) else None
  | None => None
  end.

Definition is_null {A} (v : option A) : bool :=
  match v with
  | Some _ => false
  | None => true
  end.

(** [a ?? b] *)
Definition nullish {A} (a : option A) (b : A) : A :=
  match a with
  | Some x => x
  | None => b
  end.

(** ** Collaborators

    The functions the file imports: version control ([getLastVersion],
    [getCommits], [getFirstCommitRef]), tag formatting, the commit parser,
    the bump recommendation and the [semver] package. [getLastVersion] is
    the one whose failure the file handles; it is [None] when the lookup
    fails. *)

Class Collaborators : Type := {
  CommitParserOptions : Type;
  (** the literal [{}] *)
  emptyParserOptions : CommitParserOptions;
  (** the object form of [PresetOpt] and its [name] field *)
  PresetObject : Type;
  preset_name : PresetObject -> option string;
  (** [getLastVersion({ tagPrefix, preid, releaseType })] *)
  getLastVersion : string -> option string -> option ReleaseIdentifier -> option string;
  getFirstCommitRef : string;
  (** [getCommits({ projectRoot, since })] *)
  getCommits : string -> string -> list string;
  (** [formatTag({ tagPrefix, version })] *)
  formatTag : string -> string -> string;
  (** [formatTagPrefix({ versionTagPrefix, projectName, syncVersions })] *)
  formatTagPrefix : option string -> string -> bool -> string;
  (** the [type] field of [parseConventionalCommitsSync(commit, options)] *)
  parseConventionalCommitsSync : string -> CommitParserOptions -> option string;
  (** [conventionalRecommendedBump({ path, tagPrefix, skipUnstable, preset, config })] *)
  conventionalRecommendedBump :
    string -> string -> bool -> string -> option PresetObject -> option Recommendation;
  semver_parse : string -> option SemVer;
  (** [semver.inc(version, release, identifier)] *)
  semver_inc : string -> ReleaseIdentifier -> option string -> option string
}.

(** [PresetOpt]: a preset name or a preset object. *)
Inductive PresetOpt `{Collaborators} : Type :=
  | PresetName (s : string)
  | PresetConfig (c : PresetObject).

Section Engine.

Context `{W : Collaborators}.

Record ProjectVersion : Type := mkProjectVersion {
  lastVersion : string;
  commits : list string;
  lastVersionGitRef : string
}.

Definition newline : string := String (ascii_of_nat 10) EmptyString.

Definition no_tag_warning (tagPrefix projectName : string) : LogEntry :=
  {| step := "warning";
     level := "warn";
     message :=
       "No previous version tag found, fallback to version 0.0.0."
       ++ newline
       ++ "        New version will be calculated based on all changes since first commit."
       ++ newline
       ++ "        If your project is already versioned, please tag the latest release commit with "
       ++ tagPrefix ++ "x.y.z and run this command again.";
     log_projectName := projectName |}.

Definition _isInitialVersion (lastVersion : string) : bool :=
  lastVersion =? initialVersion.

Definition _isNewVersion (version : Version.t) : bool :=
  match Version.version version with
  | None => false
  | Some v => negb (v =? initialVersion)
  end.

(** [lastVersion$]: the lookup with its [catchError]; [shareReplay] makes
    every subscriber see the one outcome. *)
Definition lastVersion_obs (tagPrefix : string) (releaseType : option ReleaseIdentifier)
    (projectName : string) (preid : option string) : Observable string :=
  match getLastVersion tagPrefix preid releaseType with
  | Some v => ret v
  | None => _logStep (no_tag_warning tagPrefix projectName) ;;; ret initialVersion
  end.

(** [lastVersionGitRef$] *)
Definition lastVersionGitRef_of (tagPrefix lastVersion : string) : Observable string :=
  if _isInitialVersion lastVersion
  then ret getFirstCommitRef
  else ret (formatTag tagPrefix lastVersion).

(** [getProjectVersion]: the values of [lastVersion$], [commits$] and
    [lastVersionGitRef$]. *)
Definition getProjectVersion (tagPrefix projectRoot : string)
    (releaseType : option ReleaseIdentifier) (since : option string)
    (projectName : string) (preid : option string) : Observable ProjectVersion :=
  lastVersion <- lastVersion_obs tagPrefix releaseType projectName preid ;;
  lastVersionGitRef <- lastVersionGitRef_of tagPrefix lastVersion ;;
  commits <- ret (getCommits projectRoot (nullish since lastVersionGitRef)) ;;
  ret {| lastVersion := lastVersion;
         commits := commits;
         lastVersionGitRef := lastVersionGitRef |}.

(** The call of [conventionalRecommendedBump] in [_semverBump]. *)
Definition recommended (preset : PresetOpt) (projectRoot tagPrefix : string)
    (skipUnstable : option bool) : option Recommendation :=
  match preset with
  | PresetName s =>
      conventionalRecommendedBump projectRoot tagPrefix (nullish skipUnstable false) s None
  | PresetConfig c =>
      conventionalRecommendedBump projectRoot tagPrefix (nullish skipUnstable false)
        (nullish (preset_name c) "conventionalcommits") (Some c)
  end.

(** [semver.parse(since)?.prerelease.length === 0] *)
Definition has_no_prerelease (since : string) : bool :=
  match semver_parse since with
  | Some v => (length (sv_prerelease v) =? 0)%nat
  | None => false
  end.

Definition is_prerelease (releaseType : option ReleaseIdentifier) : bool :=
  match releaseType with
  | Some prerelease => true
  | _ => false
  end.

(** The release type [_semverBump] increments by, if any. *)
Definition recommendedReleaseType (since : string) (releaseType : option ReleaseIdentifier)
    (rec : option Recommendation) : option ReleaseIdentifier :=
  match rec with
  | None => None
  | Some c =>
      if is_prerelease releaseType
      then if has_no_prerelease since then Some (pre c) else releaseType
      else Some (plain c)
  end.

Definition _semverBump (since : string) (preset : PresetOpt)
    (projectRoot tagPrefix : string) (releaseType : option ReleaseIdentifier)
    (preid : option string) (skipUnstable : option bool) : Observable (option string) :=
  let rec := recommended preset projectRoot tagPrefix skipUnstable in
  match recommendedReleaseType since releaseType rec with
  | Some r => ret (semver_inc since r preid)
  | None => ret None
  end.

(** [...(preid ? [preid] : [])] *)
Definition preid_argument (preid : option string) : option string :=
  if truthy preid then preid else None.

Definition _manualBump (since : string) (releaseType : ReleaseIdentifier)
    (preid : option string) : Observable (option string) :=
  ret (semver_inc since releaseType (preid_argument preid)).

Definition shouldCommitBeCalculated (commit : string)
    (commitParserOptions : option CommitParserOptions)
    (skipCommitTypes : list string) : bool :=
  let type := parseConventionalCommitsSync commit (nullish commitParserOptions emptyParserOptions) in
  let shouldSkip :=
    existsb (fun typeToSkip =>
               match type with
               | Some t => typeToSkip =? t
               | None => false
               end) skipCommitTypes in
  negb shouldSkip.

(** The body of the [dependencyRoots.map] callback. *)
Definition dependencyVersion (commitParserOptions : option CommitParserOptions)
    (preset : PresetOpt) (releaseType : option ReleaseIdentifier)
    (versionTagPrefix : option string) (syncVersions : bool)
    (lastVersionGitRef : string) (skipCommitTypes : list string)
    (projectName : string) (preid : option string) (skipUnstable : option bool)
    (root : DependencyRoot) : Observable Version.t :=
  let projectRoot := path root in
  let dependencyName := name root in
  let tagPrefix := formatTagPrefix versionTagPrefix dependencyName syncVersions in
  pv <- getProjectVersion tagPrefix projectRoot releaseType (Some lastVersionGitRef)
          projectName preid ;;
  let dependencyLastVersion := lastVersion pv in
  let filteredCommits :=
    filter (fun commit => shouldCommitBeCalculated commit commitParserOptions skipCommitTypes)
      (commits pv) in
  if (length filteredCommits =? 0)%nat then
    ret (Version.make dependency None (Some dependencyName))
  else if _isInitialVersion dependencyLastVersion then
    fmap (fun version => Version.make dependency version (Some dependencyName))
      (_semverBump dependencyLastVersion preset projectRoot tagPrefix None None skipUnstable)
  else
    ret (Version.make dependency (Some dependencyLastVersion) (Some dependencyName)).

Definition _getDependencyVersions (commitParserOptions : option CommitParserOptions)
    (preset : PresetOpt) (dependencyRoots : list DependencyRoot)
    (releaseType : option ReleaseIdentifier) (versionTagPrefix : option string)
    (syncVersions : bool) (lastVersionGitRef : string) (skipCommitTypes : list string)
    (projectName : string) (preid : option string) (skipUnstable : option bool)
    : Observable (list Version.t) :=
  forkJoin
    (map (dependencyVersion commitParserOptions preset releaseType versionTagPrefix
            syncVersions lastVersionGitRef skipCommitTypes projectName preid skipUnstable)
       dependencyRoots).

(** The argument object of [tryBump]; [dependencyRoots] has the default
    [[]] applied. *)
Record TryBumpOptions : Type := mkTryBumpOptions {
  commitParserOptions : option CommitParserOptions;
  preset : PresetOpt;
  projectRoot : string;
  tagPrefix : string;
  dependencyRoots : list DependencyRoot;
  releaseType : option ReleaseIdentifier;
  preid : option string;
  skipUnstable : option bool;
  versionTagPrefix : option string;
  syncVersions : bool;
  allowEmptyRelease : option bool;
  skipCommitTypes : list string;
  projectName : string
}.

(** [releaseType && releaseType !== 'prerelease'] *)
Definition manual_release (releaseType : option ReleaseIdentifier) : option ReleaseIdentifier :=
  match releaseType with
  | Some prerelease => None
  | other => other
  end.

(** The callback of the inner [switchMap] of [tryBump]: the decision once
    the project bump and the dependency versions are known. *)
Definition decide (o : TryBumpOptions) (lastVersion : string) (commits : list string)
    (projectVersion : Version.t) (dependencyVersions : list Version.t)
    : Observable (option NewVersion.t) :=
  let dependencyUpdates := filter _isNewVersion dependencyVersions in
  let newVersion :=
    {| NewVersion.version := or_else (Version.version projectVersion) lastVersion;
       NewVersion.previousVersion := lastVersion;
       NewVersion.dependencyUpdates := dependencyUpdates |} in
  if is_null (Version.version projectVersion) && negb (length dependencyUpdates =? 0)%nat
  then
    fmap (fun version =>
            if_truthy version
              (fun version =>
                 {| NewVersion.version := or_else (Some version) lastVersion;
                    NewVersion.previousVersion := lastVersion;
                    NewVersion.dependencyUpdates :=
                      NewVersion.dependencyUpdates newVersion |}))
      (_manualBump lastVersion patch (preid o))
  else
    let filteredCommits :=
      filter (fun commit =>
                shouldCommitBeCalculated commit (commitParserOptions o) (skipCommitTypes o))
        commits in
    if (length dependencyUpdates =? 0)%nat
       && (length filteredCommits =? 0)%nat
       && negb (truthy_flag (allowEmptyRelease o))
    then ret None
    else ret (Some newVersion).

Definition tryBump (o : TryBumpOptions) : Observable (option NewVersion.t) :=
  pv <- getProjectVersion (tagPrefix o) (projectRoot o) (releaseType o) None
          (projectName o) (preid o) ;;
  let lastVersion := lastVersion pv in
  match manual_release (releaseType o) with
  | Some releaseType =>
      fmap (fun version =>
              if_truthy version
                (fun version =>
                   {| NewVersion.version := version;
                      NewVersion.previousVersion := lastVersion;
                      NewVersion.dependencyUpdates := [] |}))
        (_manualBump lastVersion releaseType (preid o))
  | None =>
      projectVersion <-
        fmap (fun version => Version.make project version None)
          (_semverBump lastVersion (preset o) (projectRoot o) (tagPrefix o) (releaseType o)
             (preid o) (skipUnstable o)) ;;
      dependencyVersions <-
        _getDependencyVersions (commitParserOptions o) (preset o) (dependencyRoots o)
          (releaseType o) (versionTagPrefix o) (syncVersions o) (lastVersionGitRef pv)
          (skipCommitTypes o) (projectName o) (preid o) None ;;
      decide o lastVersion (commits pv) projectVersion dependencyVersions
  end.

(** *** The intermediate values of [tryBump]

    The values bound inside [tryBump], named so that statements can speak
    about them: the primary project's window, its automatic bump, the
    dependency versions as [tryBump] asks for them and the dependency
    updates kept by the filter. *)

Definition resolved (o : TryBumpOptions) : ProjectVersion :=
  emitted (getProjectVersion (tagPrefix o) (projectRoot o) (releaseType o) None
             (projectName o) (preid o)).

Definition resolvedLastVersion (o : TryBumpOptions) : string :=
  lastVersion (resolved o).

Definition projectBump (o : TryBumpOptions) : option string :=
  emitted (_semverBump (resolvedLastVersion o) (preset o) (projectRoot o) (tagPrefix o)
             (releaseType o) (preid o) (skipUnstable o)).

Definition projectVersionOf (o : TryBumpOptions) : Version.t :=
  Version.make project (projectBump o) None.

Definition dependencyVersionsOf (o : TryBumpOptions) : list Version.t :=
  emitted (_getDependencyVersions (commitParserOptions o) (preset o) (dependencyRoots o)
             (releaseType o) (versionTagPrefix o) (syncVersions o)
             (lastVersionGitRef (resolved o)) (skipCommitTypes o) (projectName o)
             (preid o) None).

Definition dependencyUpdatesOf (o : TryBumpOptions) : list Version.t :=
  filter _isNewVersion (dependencyVersionsOf o).

(** The commits of a window that count, per [shouldCommitBeCalculated]. *)
Definition qualifying (commitParserOptions : option CommitParserOptions)
    (skipCommitTypes : list string) (commits : list string) : list string :=
  filter (fun commit => shouldCommitBeCalculated commit commitParserOptions skipCommitTypes)
    commits.

(** A commit is skippable when its parsed type is one of the types to
    skip. *)
Definition skippable (commitParserOptions : option CommitParserOptions)
    (skipCommitTypes : list string) (commit : string) : Prop :=
  exists type,
    parseConventionalCommitsSync commit (nullish commitParserOptions emptyParserOptions)
      = Some type
    /\ In type skipCommitTypes.

(** The automatic path: no release type, or [prerelease]. *)
Definition automatic (o : TryBumpOptions) : Prop :=
  releaseType o = None \/ releaseType o = Some prerelease.

End Engine.

(** ** The [semver] package

    Modelled from the spec: the [semver] package is a dependency of the
    repository and not part of its source; the spec names it as
    "low-level semantic-version string parsing/incrementing",
    [incrementVersion(version, releaseType, preid?)] and "standard semver
    ordering". The definitions follow the package's [SemVer] class
    ([parse], [inc], [compare]) for versions in strict form. Numeric
    components are unbounded naturals, surrounding white space is not
    trimmed, and a non-numeric identifier is never a number for [isNaN]. *)

Module NodeSemver.

Definition is_digit (c : ascii) : bool :=
  let n := nat_of_ascii c in (48 <=? n)%nat && (n <=? 57)%nat.

Definition is_letter (c : ascii) : bool :=
  let n := nat_of_ascii c in
  ((65 <=? n)%nat && (n <=? 90)%nat) || ((97 <=? n)%nat && (n <=? 122)%nat).

Definition is_identifier_char (c : ascii) : bool :=
  is_digit c || is_letter c || (c =? "-")%char.

Fixpoint all_chars (p : ascii -> bool) (s : string) : bool :=
  match s with
  | EmptyString => true
  | String c s' => p c && all_chars p s'
  end.

(** [s.split(sep)] *)
Fixpoint split (sep : ascii) (s : string) : list string :=
  match s with
  | EmptyString => [EmptyString]
  | String c s' =>
      if (c =? sep)%char then EmptyString :: split sep s'
      else match split sep s' with
           | piece :: pieces => String c piece :: pieces
           | [] => [String c EmptyString]
           end
  end.

(** The text before the first [sep] and, when there is one, the text after
    it. *)
Fixpoint cut (sep : ascii) (s : string) : string * option string :=
  match s with
  | EmptyString => (EmptyString, None)
  | String c s' =>
      if (c =? sep)%char then (EmptyString, Some s')
      else let (before, after) := cut sep s' in (String c before, after)
  end.

Definition digits_value (s : string) : option N :=
  match s with
  | EmptyString => None
  | _ => if all_chars is_digit s
         then option_map N.of_uint (NilEmpty.uint_of_string s)
         else None
  end.

(** [0|[1-9]\d*] *)
Definition numeric_identifier (s : string) : option N :=
  match s with
  | String "0" (String _ _) => None
  | _ => digits_value s
  end.

(** A prerelease identifier: numeric, or of letters, digits and hyphens with
    at least one that is not a digit. *)
Definition prerelease_identifier (s : string) : option Identifier :=
  match s with
  | EmptyString => None
  | _ =>
      if all_chars is_digit s then option_map Num (numeric_identifier s)
      else if all_chars is_identifier_char s then Some (Alnum s)
      else None
  end.

Definition build_identifier (s : string) : option string :=
  match s with
  | EmptyString => None
  | _ => if all_chars is_identifier_char s then Some s else None
  end.

Fixpoint traverse {A B} (f : A -> option B) (l : list A) : option (list B) :=
  match l with
  | [] => Some []
  | a :: l' =>
      match f a, traverse f l' with
      | Some b, Some bs => Some (b :: bs)
      | _, _ => None
      end
  end.

Definition strip_v (s : string) : string :=
  match s with
  | String "v" s' => s'
  | _ => s
  end.

(** Modelled from the spec: [semver.parse(version)], [null] for a string
    that is not a version. *)
Definition parse (version : string) : option SemVer :=
  let (rest, build) := cut "+" (strip_v version) in
  let (main, prerelease) := cut "-" rest in
  match traverse numeric_identifier (split "." main),
        match prerelease with
        | Some p => traverse prerelease_identifier (split "." p)
        | None => Some []
        end,
        match build with
        | Some b => traverse build_identifier (split "." b)
        | None => Some []
        end
  with
  | Some [ma; mi; pa], Some pre, Some bld => Some (mkSemVer ma mi pa pre bld)
  | _, _, _ => None
  end.

Definition number_text (n : N) : string := NilEmpty.string_of_uint (N.to_uint n).

Definition identifier_text (i : Identifier) : string :=
  match i with
  | Num n => number_text n
  | Alnum s => s
  end.

(** [format()]: the [version] property, without build metadata. *)
Definition format (v : SemVer) : string :=
  number_text (sv_major v) ++ "." ++ number_text (sv_minor v) ++ "."
  ++ number_text (sv_patch v)
  ++ match sv_prerelease v with
     | [] => ""
     | pre => "-" ++ String.concat "." (map identifier_text pre)
     end.

(** The loop of the ['pre'] case: the rightmost numeric identifier is
    incremented; [None] when there is none. *)
Fixpoint bump_last_numeric (l : list Identifier) : option (list Identifier) :=
  match l with
  | [] => None
  | x :: rest =>
      match bump_last_numeric rest with
      | Some rest' => Some (x :: rest')
      | None =>
          match x with
          | Num n => Some (Num (n + 1) :: rest)
          | Alnum _ => None
          end
      end
  end.

(** [compareIdentifiers(a, identifier) === 0] *)
Definition same_identifier (a : Identifier) (identifier : string) : bool :=
  match a with
  | Num n =>
      match digits_value identifier with
      | Some m => (n =? m)%N
      | None => false
      end
  | Alnum s => s =? identifier
  end.

(** The ['pre'] case of [inc]. *)
Definition inc_pre (identifier : option string) (p : list Identifier) : list Identifier :=
  let bumped :=
    match p with
    | [] => [Num 0]
    | _ => match bump_last_numeric p with
           | Some p' => p'
           | None => (p ++ [Num 0])%list
           end
    end in
  match preid_argument identifier with
  | None => bumped
  | Some id =>
      let fresh := [Alnum id; Num 0] in
      match bumped with
      | first :: rest =>
          if same_identifier first id
          then match rest with
               | Num _ :: _ => bumped
               | _ => fresh
               end
          else fresh
      | [] => fresh
      end
  end.

Definition is_zero (n : N) : bool := (n =? 0)%N.
Definition no_prerelease (v : SemVer) : bool :=
  match sv_prerelease v with [] => true | _ => false end.

Definition inc_patch (v : SemVer) : SemVer :=
  mkSemVer (sv_major v) (sv_minor v)
    (if no_prerelease v then sv_patch v + 1 else sv_patch v) [] [].

(** [SemVer.prototype.inc] *)
Definition inc_version (v : SemVer) (release : ReleaseIdentifier)
    (identifier : option string) : SemVer :=
  match release with
  | premajor => mkSemVer (sv_major v + 1) 0 0 (inc_pre identifier []) []
  | preminor => mkSemVer (sv_major v) (sv_minor v + 1) 0 (inc_pre identifier []) []
  | prepatch =>
      mkSemVer (sv_major v) (sv_minor v) (sv_patch v + 1) (inc_pre identifier []) []
  | prerelease =>
      let v' := if no_prerelease v then inc_patch v else v in
      mkSemVer (sv_major v') (sv_minor v') (sv_patch v')
        (inc_pre identifier (sv_prerelease v')) []
  | major =>
      mkSemVer
        (if negb (is_zero (sv_minor v)) || negb (is_zero (sv_patch v)) || no_prerelease v
         then sv_major v + 1 else sv_major v) 0 0 [] []
  | minor =>
      mkSemVer (sv_major v)
        (if negb (is_zero (sv_patch v)) || no_prerelease v
         then sv_minor v + 1 else sv_minor v) 0 [] []
  | patch => inc_patch v
  end.

(** Modelled from the spec: [semver.inc(version, release, identifier)],
    the spec's [incrementVersion]; [null] when the version does not parse. *)
Definition inc (version : string) (release : ReleaseIdentifier)
    (identifier : option string) : option string :=
  option_map (fun v => format (inc_version v release identifier)) (parse version).

Definition compareIdentifiers (a b : Identifier) : comparison :=
  match a, b with
  | Num n, Num m => (n ?= m)%N
  | Num _, Alnum _ => Lt
  | Alnum _, Num _ => Gt
  | Alnum s, Alnum t => String.compare s t
  end.

Fixpoint compare_identifiers (p q : list Identifier) : comparison :=
  match p, q with
  | [], [] => Eq
  | _ :: _, [] => Gt
  | [], _ :: _ => Lt
  | a :: p', b :: q' =>
      match compareIdentifiers a b with
      | Eq => compare_identifiers p' q'
      | c => c
      end
  end.

Definition comparePre (v w : SemVer) : comparison :=
  match sv_prerelease v, sv_prerelease w with
  | _ :: _, [] => Lt
  | [], _ :: _ => Gt
  | p, q => compare_identifiers p q
  end.

Definition compareMain (v w : SemVer) : comparison :=
  match (sv_major v ?= sv_major w)%N with
  | Eq => match (sv_minor v ?= sv_minor w)%N with
          | Eq => (sv_patch v ?= sv_patch w)%N
          | c => c
          end
  | c => c
  end.

Definition compare_versions (v w : SemVer) : comparison :=
  match compareMain v w with
  | Eq => comparePre v w
  | c => c
  end.

(** Modelled from the spec: [semver.compare(a, b)], the spec's "standard
    semver ordering"; [None] where the package throws on an invalid
    version. *)
Definition compare (a b : string) : option comparison :=
  match parse a, parse b with
  | Some v, Some w => Some (compare_versions v w)
  | _, _ => None
  end.

(** [semver.gte(a, b)] *)
Definition gte (a b : string) : Prop :=
  compare a b = Some Gt \/ compare a b = Some Eq.

(** A prerelease identifier as [parse] produces it. *)
Definition valid_identifier (i : Identifier) : bool :=
  match i with
  | Num _ => true
  | Alnum s =>
      match prerelease_identifier s with
      | Some (Alnum _) => true
      | _ => false
      end
  end.

(** An identifier the caller may give as [preid]. *)
Definition valid_preid (identifier : string) : bool :=
  match prerelease_identifier identifier with
  | Some _ => true
  | None => false
  end.

(** A [prerelease] increment under an identifier restarts the prerelease
    at [identifier.0] below the identifiers it finds when the first of them
    ranks above the identifier, or is the identifier and is followed by one
    that is not a number. *)
Definition restarts_below (identifier : option string) (p : list Identifier) : bool :=
  match preid_argument identifier, p with
  | Some id, a :: rest =>
      match prerelease_identifier id with
      | Some i =>
          match compareIdentifiers i a with
          | Lt => true
          | Eq => match rest with
                  | Alnum _ :: _ => true
                  | _ => false
                  end
          | Gt => false
          end
      | None => false
      end
  | _, _ => false
  end.

(** The increments other than the [prerelease] ones that restart below. *)
Definition steady (v : SemVer) (release : ReleaseIdentifier) (identifier : option string)
    : Prop :=
  release = prerelease -> restarts_below identifier (sv_prerelease v) = false.

Definition other_than (c : ascii) (x : ascii) : bool := negb (x =? c)%char.

Definition main_text (v : SemVer) : string :=
  number_text (sv_major v) ++ "." ++ number_text (sv_minor v) ++ "."
  ++ number_text (sv_patch v).

(** A version with its prerelease identifiers as they are read again. *)
Definition reread (w : SemVer) (pre : list Identifier) : SemVer :=
  mkSemVer (sv_major w) (sv_minor w) (sv_patch w) pre [].

End NodeSemver.

(** ** A repository to run the engine on

    Collaborators given by tables: the last version of each tag prefix, the
    commits of each project root since a reference, and the recommended
    bump of each project root. Tags are the prefix followed by the version,
    the commit type is the text before the first [:], and the [semver]
    package is [NodeSemver]. *)

Module Scenario.

Record Repository : Type := mkRepository {
  last_versions : list (string * string);
  commit_log : list (string * string * list string);
  recommendations : list (string * Recommendation);
  first_commit : string
}.

Fixpoint lookup {A} (k : string) (table : list (string * A)) : option A :=
  match table with
  | [] => None
  | (k', a) :: rest => if k' =? k then Some a else lookup k rest
  end.

Fixpoint commits_since (projectRoot since : string)
    (table : list (string * string * list string)) : list string :=
  match table with
  | [] => []
  | (root, ref, messages) :: rest =>
      if (root =? projectRoot) && (ref =? since) then messages
      else commits_since projectRoot since rest
  end.

Definition commit_type (commit : string) : option string :=
  match NodeSemver.cut ":" commit with
  | (type, Some _) => Some type
  | (_, None) => None
  end.

Definition tag_prefix (versionTagPrefix : option string) (projectName : string)
    (syncVersions : bool) : string :=
  match versionTagPrefix with
  | Some p => p
  | None => if syncVersions then "v" else projectName ++ "-"
  end.

#[local] Instance world (r : Repository) : Collaborators := {|
  CommitParserOptions := unit;
  emptyParserOptions := tt;
  PresetObject := option string;
  preset_name := fun c => c;
  getLastVersion := fun tagPrefix _ _ => lookup tagPrefix (last_versions r);
  getFirstCommitRef := first_commit r;
  getCommits := fun projectRoot since => commits_since projectRoot since (commit_log r);
  formatTag := fun tagPrefix version => tagPrefix ++ version;
  formatTagPrefix := tag_prefix;
  parseConventionalCommitsSync := fun commit _ => commit_type commit;
  conventionalRecommendedBump :=
    fun projectRoot _ _ _ _ => lookup projectRoot (recommendations r);
  semver_parse := NodeSemver.parse;
  semver_inc := NodeSemver.inc
|}.

Definition angular (r : Repository) : @PresetOpt (world r) := PresetName "angular".

(** The arguments of [tryBump] for the project [app] of a repository. *)
Definition options (r : Repository) (dependencyRoots : list DependencyRoot)
    (releaseType : option ReleaseIdentifier) (preid : option string)
    (allowEmptyRelease : option bool) : @TryBumpOptions (world r) :=
  {| commitParserOptions := None;
     preset := angular r;
     projectRoot := "apps/app";
     tagPrefix := "app-";
     dependencyRoots := dependencyRoots;
     releaseType := releaseType;
     preid := preid;
     skipUnstable := Some true;
     versionTagPrefix := None;
     syncVersions := false;
     allowEmptyRelease := allowEmptyRelease;
     skipCommitTypes := ["chore"; "docs"];
     projectName := "app" |}.

Definition lib : DependencyRoot := {| path := "libs/lib"; name := "lib" |}.
Definition util : DependencyRoot := {| path := "libs/util"; name := "util" |}.

(** No tag at all; one [feat] commit in the application. *)
Definition untagged : Repository :=
  {| last_versions := [];
     commit_log := [("apps/app", "c0", ["feat: first feature"])];
     recommendations := [("apps/app", recommend_minor)];
     first_commit := "c0" |}.

(** The application is at 1.2.3 and has only a [chore] commit; the library
    [lib] is tagged 0.4.0 and changed since [app-1.2.3], the library [util]
    has no tag and changed too. *)
Definition tagged : Repository :=
  {| last_versions := [("app-", "1.2.3"); ("lib-", "0.4.0")];
     commit_log :=
       [("apps/app", "app-1.2.3", ["chore: tidy"]);
        ("libs/lib", "app-1.2.3", ["fix: a bug"; "docs: readme"]);
        ("libs/util", "app-1.2.3", ["feat: new helper"])];
     recommendations := [("libs/util", recommend_minor)];
     first_commit := "c0" |}.

(** The application is inside the prerelease train [beta]. *)
Definition in_beta : Repository :=
  {| last_versions := [("app-", "1.2.3-beta.5")];
     commit_log := [("apps/app", "app-1.2.3-beta.5", ["fix: a bug"])];
     recommendations := [("apps/app", recommend_patch)];
     first_commit := "c0" |}.

(** The application is at a prerelease of [beta] whose second identifier
    is not a number. *)
Definition named_beta : Repository :=
  {| last_versions := [("app-", "1.2.0-beta.fooblz")];
     commit_log := [("apps/app", "app-1.2.0-beta.fooblz", ["fix: a bug"])];
     recommendations := [("apps/app", recommend_patch)];
     first_commit := "c0" |}.

End Scenario.

(** The statement that a result never goes below the version it starts
    from, in the ordering of the [semver] package. *)
Definition never_a_downgrade `{W : Collaborators} (o : TryBumpOptions) : Prop :=
  forall nv,
    emitted (tryBump o) = Some nv ->
    NewVersion.previousVersion nv = resolvedLastVersion o
    /\ NodeSemver.gte (NewVersion.version nv) (NewVersion.previousVersion nv).

(** ** More repositories *)

Module MoreScenarios.

Import Scenario.

(** The application carries a tag at the initial version. *)
Definition tagged_at_initial : Repository :=
  {| last_versions := [("app-", "0.0.0")];
     commit_log := [("apps/app", "c0", ["feat: first feature"])];
     recommendations := [("apps/app", recommend_minor)];
     first_commit := "c0" |}.

(** The last tag of the application does not hold a version; the library
    [lib] is tagged and changed since. *)
Definition broken_tag : Repository :=
  {| last_versions := [("app-", "latest"); ("lib-", "0.4.0")];
     commit_log :=
       [("apps/app", "app-latest", ["chore: tidy"]);
        ("libs/lib", "app-latest", ["fix: a bug"])];
     recommendations := [];
     first_commit := "c0" |}.

(** The application has no tag; the library [lib] is tagged and has one
    commit in the whole history. *)
Definition first_release : Repository :=
  {| last_versions := [("lib-", "0.4.0")];
     commit_log :=
       [("apps/app", "c0", ["chore: setup"]);
        ("libs/lib", "c0", ["feat: a library"])];
     recommendations := [];
     first_commit := "c0" |}.

(** The arguments of [Scenario.options] with no commit type to skip. *)
Definition options_skipping_nothing (r : Repository) (dependencyRoots : list DependencyRoot)
    : @TryBumpOptions (world r) :=
  {| commitParserOptions := None;
     preset := angular r;
     projectRoot := "apps/app";
     tagPrefix := "app-";
     dependencyRoots := dependencyRoots;
     releaseType := None;
     preid := None;
     skipUnstable := None;
     versionTagPrefix := None;
     syncVersions := false;
     allowEmptyRelease := None;
     skipCommitTypes := [];
     projectName := "app" |}.

End MoreScenarios.

(** ** The dependencies as [tryBump] resolves them

    The values of the [dependencyRoots.map] callback for one root, with
    the arguments [tryBump] passes to [_getDependencyVersions]. *)

Section Dependencies.

Context `{W : Collaborators}.

Variable o : TryBumpOptions.

Definition dependencyTagPrefix (root : DependencyRoot) : string :=
  formatTagPrefix (versionTagPrefix o) (name root) (syncVersions o).

(** The commits of a dependency since the primary project's range
    reference that the classifier keeps. *)
Definition dependencyCommits (root : DependencyRoot) : list string :=
  qualifying (commitParserOptions o) (skipCommitTypes o)
    (getCommits (path root) (lastVersionGitRef (resolved o))).

(** The entry the callback emits for a root. *)
Definition dependencyEntry (root : DependencyRoot) : Version.t :=
  emitted (dependencyVersion (commitParserOptions o) (preset o) (releaseType o)
             (versionTagPrefix o) (syncVersions o) (lastVersionGitRef (resolved o))
             (skipCommitTypes o) (projectName o) (preid o) None root).

(** The tag lookup of a dependency fails. *)
Definition untagged_dependency (root : DependencyRoot) : bool :=
  is_null (getLastVersion (dependencyTagPrefix root) (preid o) (releaseType o)).

(** The tag lookup of the primary project fails. *)
Definition untagged_project : bool :=
  is_null (getLastVersion (tagPrefix o) (preid o) (releaseType o)).

End Dependencies.

(** * Properties *)

Section ObservableFacts.

Context {A B : Type}.

Lemma emitted_ret (a : A) : emitted (ret a) = a.
Proof. reflexivity. Qed.

Lemma logged_ret (a : A) : logged (ret a) = [].
Proof. reflexivity. Qed.

Lemma emitted_bind (m : Observable A) (f : A -> Observable B) :
  emitted (bind m f) = emitted (f (emitted m)).
Proof.
  destruct m as [a l]. unfold bind. simpl.
  destruct (f a). reflexivity.
Qed.

Lemma logged_bind (m : Observable A) (f : A -> Observable B) :
  logged (bind m f) = (logged m ++ logged (f (emitted m)))%list.
Proof.
  destruct m as [a l]. unfold bind. simpl.
  destruct (f a). reflexivity.
Qed.

Lemma emitted_fmap (f : A -> B) (m : Observable A) :
  emitted (fmap f m) = f (emitted m).
Proof. unfold fmap. rewrite emitted_bind. reflexivity. Qed.

Lemma logged_fmap (f : A -> B) (m : Observable A) :
  logged (fmap f m) = logged m.
Proof. unfold fmap. rewrite logged_bind. simpl. apply app_nil_r. Qed.

End ObservableFacts.

Lemma emitted_forkJoin_map {A B} (f : A -> Observable B) (l : list A) :
  emitted (forkJoin (map f l)) = map (fun a => emitted (f a)) l.
Proof.
  induction l as [|a l IH]; cbn [map forkJoin].
  - reflexivity.
  - rewrite emitted_bind, emitted_bind, emitted_ret, IH. reflexivity.
Qed.

Create Rewrite HintDb observable.
#[global] Hint Rewrite @emitted_ret @emitted_bind @emitted_fmap
  @logged_ret @logged_bind @logged_fmap @emitted_forkJoin_map : observable.

Ltac run_observable := autorewrite with observable.

Section Truthiness.

(** The release types [pre] builds are the names [`pre${...}`] builds. *)
Lemma pre_template (c : Recommendation) :
  release_name (pre c) = "pre" ++ release_name (plain c).
Proof. destruct c; reflexivity. Qed.

Lemma truthy_Some (s : string) : s <> "" -> truthy (Some s) = true.
Proof.
  intros H. simpl. unfold truthy_string.
  destruct (String.eqb_spec s ""); [contradiction | reflexivity].
Qed.

Lemma truthy_true_inv (v : option string) :
  truthy v = true -> exists s, v = Some s /\ s <> "" /\ forall d, or_else v d = s.
Proof.
  destruct v as [s|]; simpl; [|discriminate].
  unfold truthy_string. intros H. exists s.
  destruct (String.eqb_spec s "") as [|Hs]; [discriminate|].
  split; [reflexivity|]. split; [exact Hs|]. intros d.
  unfold truthy_string. destruct (String.eqb_spec s ""); [contradiction | reflexivity].
Qed.

Lemma or_else_cases (v : option string) (d : string) :
  (truthy v = true /\ v = Some (or_else v d)) \/ (truthy v = false /\ or_else v d = d).
Proof.
  destruct v as [s|]; simpl; [|right; split; reflexivity].
  destruct (truthy_string s); [left | right]; split; reflexivity.
Qed.

Lemma if_truthy_or_else {A} (v : option string) (d : string) (make : string -> A) :
  if_truthy v make = if truthy v then Some (make (or_else v d)) else None.
Proof.
  destruct v as [s|]; simpl; [|reflexivity].
  destruct (truthy_string s); reflexivity.
Qed.

Lemma or_else_Some_or_else (v : option string) (d : string) :
  truthy v = true -> or_else (Some (or_else v d)) d = or_else v d.
Proof.
  destruct v as [s|]; simpl; [|discriminate].
  intros H. rewrite H. simpl. rewrite H. reflexivity.
Qed.

Lemma manual_release_Some (rt : option ReleaseIdentifier) (r : ReleaseIdentifier) :
  rt = Some r -> r <> prerelease -> manual_release rt = Some r.
Proof. intros -> H. destruct r; try reflexivity. contradiction. Qed.

Lemma manual_release_inv (rt : option ReleaseIdentifier) (r : ReleaseIdentifier) :
  manual_release rt = Some r -> rt = Some r /\ r <> prerelease.
Proof.
  destruct rt as [[]|]; simpl; intros H; inversion H; subst; split;
    try reflexivity; discriminate.
Qed.

Lemma manual_release_None (rt : option ReleaseIdentifier) :
  manual_release rt = None <-> rt = None \/ rt = Some prerelease.
Proof.
  destruct rt as [[]|]; simpl; split; intros H;
    try discriminate; try (destruct H; discriminate); auto.
Qed.

End Truthiness.

Section Window.

Context `{W : Collaborators}.

Variables (tagPrefix projectRoot : string) (releaseType : option ReleaseIdentifier)
  (since : option string) (projectName : string) (preid : option string).

Let window := getProjectVersion tagPrefix projectRoot releaseType since projectName preid.

Lemma window_lastVersion :
  lastVersion (emitted window) =
  nullish (getLastVersion tagPrefix preid releaseType) initialVersion.
Proof.
  unfold window, getProjectVersion, lastVersion_obs, lastVersionGitRef_of.
  run_observable.
  destruct (getLastVersion tagPrefix preid releaseType); reflexivity.
Qed.

Lemma window_lastVersionGitRef :
  lastVersionGitRef (emitted window) =
  if _isInitialVersion (lastVersion (emitted window))
  then getFirstCommitRef
  else formatTag tagPrefix (lastVersion (emitted window)).
Proof.
  unfold window, getProjectVersion, lastVersionGitRef_of.
  run_observable. simpl.
  match goal with |- context [if ?b then _ else _] => destruct b end; reflexivity.
Qed.

Lemma window_commits :
  commits (emitted window) =
  getCommits projectRoot (nullish since (lastVersionGitRef (emitted window))).
Proof.
  unfold window, getProjectVersion, lastVersionGitRef_of. run_observable. simpl.
  match goal with |- context [if ?b then _ else _] => destruct b end; reflexivity.
Qed.

Lemma window_logged :
  logged window =
  match getLastVersion tagPrefix preid releaseType with
  | Some _ => []
  | None => [no_tag_warning tagPrefix projectName]
  end.
Proof.
  unfold window, getProjectVersion, lastVersion_obs, lastVersionGitRef_of.
  run_observable.
  destruct (getLastVersion tagPrefix preid releaseType); simpl;
    run_observable; simpl;
    try match goal with |- context [if ?b then _ else _] => destruct b end; reflexivity.
Qed.

End Window.

(** ** The [semver] package: printing, parsing and ordering *)

Module NodeSemverFacts.
Import NodeSemver.

(** *** Characters and pieces *)

Lemma all_chars_app (p : ascii -> bool) (a b : string) :
  all_chars p (a ++ b) = all_chars p a && all_chars p b.
Proof.
  induction a as [|x a IH]; simpl.
  - reflexivity.
  - rewrite IH. apply andb_assoc.
Qed.

Lemma all_chars_weaken (p q : ascii -> bool) (s : string) :
  (forall x, p x = true -> q x = true) -> all_chars p s = true -> all_chars q s = true.
Proof.
  intros Hpq. induction s as [|x s IH]; simpl.
  - reflexivity.
  - intros H. apply andb_true_iff in H. destruct H as [Hx Hs].
    rewrite (Hpq x Hx), (IH Hs). reflexivity.
Qed.

Lemma is_digit_identifier_char (x : ascii) : is_digit x = true -> is_identifier_char x = true.
Proof. intros H. unfold is_identifier_char. rewrite H. reflexivity. Qed.

Lemma is_digit_other_than (c : ascii) :
  is_digit c = false -> forall x, is_digit x = true -> other_than c x = true.
Proof.
  intros Hc x Hx. unfold other_than.
  destruct (Ascii.eqb_spec x c) as [->|]; [congruence | reflexivity].
Qed.

Lemma is_identifier_char_other_than (c : ascii) :
  is_identifier_char c = false ->
  forall x, is_identifier_char x = true -> other_than c x = true.
Proof.
  intros Hc x Hx. unfold other_than.
  destruct (Ascii.eqb_spec x c) as [->|]; [congruence | reflexivity].
Qed.

Lemma cut_absent (c : ascii) (s : string) :
  all_chars (other_than c) s = true -> cut c s = (s, None).
Proof.
  induction s as [|x s IH]; simpl.
  - reflexivity.
  - intros H. apply andb_true_iff in H. destruct H as [Hx Hs].
    unfold other_than in Hx. apply negb_true_iff in Hx. rewrite Hx, (IH Hs).
    reflexivity.
Qed.

Lemma cut_first (c : ascii) (a b : string) :
  all_chars (other_than c) a = true -> cut c (a ++ String c b) = (a, Some b).
Proof.
  induction a as [|x a IH]; simpl.
  - intros _. rewrite Ascii.eqb_refl. reflexivity.
  - intros H. apply andb_true_iff in H. destruct H as [Hx Ha].
    unfold other_than in Hx. apply negb_true_iff in Hx. rewrite Hx, (IH Ha).
    reflexivity.
Qed.

Lemma split_absent (c : ascii) (s : string) :
  all_chars (other_than c) s = true -> split c s = [s].
Proof.
  induction s as [|x s IH]; simpl.
  - reflexivity.
  - intros H. apply andb_true_iff in H. destruct H as [Hx Hs].
    unfold other_than in Hx. apply negb_true_iff in Hx. rewrite Hx, (IH Hs).
    reflexivity.
Qed.

Lemma split_first (c : ascii) (a b : string) :
  all_chars (other_than c) a = true -> split c (a ++ String c b) = a :: split c b.
Proof.
  induction a as [|x a IH]; simpl.
  - intros _. rewrite Ascii.eqb_refl. reflexivity.
  - intros H. apply andb_true_iff in H. destruct H as [Hx Ha].
    unfold other_than in Hx. apply negb_true_iff in Hx. rewrite Hx, (IH Ha).
    reflexivity.
Qed.

Lemma split_concat (c : ascii) (piece : string) (pieces : list string) :
  forallb (all_chars (other_than c)) (piece :: pieces) = true ->
  split c (String.concat (String c EmptyString) (piece :: pieces)) = piece :: pieces.
Proof.
  revert piece. induction pieces as [|q pieces IH]; intros piece H.
  - simpl in *. apply split_absent. rewrite andb_true_r in H. exact H.
  - cbn [forallb] in H. apply andb_true_iff in H. destruct H as [Hp Hq].
    cbn [String.concat]. cbn [append].
    rewrite (split_first c piece _ Hp). f_equal. apply IH. exact Hq.
Qed.


(** *** Numbers *)

Lemma string_of_uint_digits (d : Decimal.uint) :
  all_chars is_digit (NilEmpty.string_of_uint d) = true.
Proof. induction d; simpl; try assumption; reflexivity. Qed.

Lemma to_uint_normal (n : N) : N.to_uint n = Decimal.unorm (N.to_uint n).
Proof.
  rewrite <- (DecimalN.Unsigned.to_of (N.to_uint n)), DecimalN.Unsigned.of_to.
  reflexivity.
Qed.

Lemma to_uint_leading_zero (n : N) (d : Decimal.uint) :
  N.to_uint n = Decimal.D0 d -> d = Decimal.Nil.
Proof.
  rewrite to_uint_normal. unfold Decimal.unorm.
  destruct (Decimal.nzhead (N.to_uint n)) eqn:E; intros H; inversion H; try reflexivity.
  exfalso. exact (DecimalFacts.nzhead_nonzero _ _ E).
Qed.

Lemma number_text_digits (n : N) : all_chars is_digit (number_text n) = true.
Proof. apply string_of_uint_digits. Qed.

Lemma number_text_nonempty (n : N) : number_text n <> "".
Proof.
  unfold number_text. intros H.
  assert (Hnil : N.to_uint n = Decimal.Nil).
  { destruct (N.to_uint n); simpl in H; try discriminate. reflexivity. }
  rewrite to_uint_normal in Hnil. exact (DecimalFacts.unorm_nonnil _ Hnil).
Qed.

Lemma digits_value_number_text (n : N) : digits_value (number_text n) = Some n.
Proof.
  unfold digits_value. pose proof (number_text_nonempty n) as Hne.
  destruct (number_text n) eqn:E; [contradiction|]. rewrite <- E.
  rewrite number_text_digits. unfold number_text.
  rewrite NilEmpty.usu. simpl. rewrite DecimalN.Unsigned.of_to. reflexivity.
Qed.

Lemma numeric_identifier_no_leading_zero (c : ascii) (s : string) :
  c <> "0"%char -> numeric_identifier (String c s) = digits_value (String c s).
Proof.
  intros Hc. unfold numeric_identifier.
  destruct s; destruct c as [[] [] [] [] [] [] [] []]; try reflexivity;
    exfalso; apply Hc; reflexivity.
Qed.

Lemma numeric_identifier_number_text (n : N) :
  numeric_identifier (number_text n) = Some n.
Proof.
  rewrite <- (digits_value_number_text n).
  destruct (number_text n) as [|c [|c' s]] eqn:E.
  - reflexivity.
  - destruct c as [[] [] [] [] [] [] [] []]; reflexivity.
  - apply numeric_identifier_no_leading_zero. intros ->.
    unfold number_text in E.
    destruct (N.to_uint n) as [|d|d|d|d|d|d|d|d|d|d] eqn:Eu; simpl in E; try discriminate.
    apply to_uint_leading_zero in Eu. subst d. simpl in E. discriminate E.
Qed.


(** *** Printing and parsing a version *)

Lemma append_assoc (a b c : string) : (a ++ b) ++ c = a ++ (b ++ c).
Proof. induction a as [|x a IH]; simpl; [reflexivity | rewrite IH; reflexivity]. Qed.

Lemma append_empty (a : string) : a ++ "" = a.
Proof. induction a as [|x a IH]; simpl; [reflexivity | rewrite IH; reflexivity]. Qed.

Lemma format_main_text (v : SemVer) :
  format v =
  main_text v ++ match sv_prerelease v with
                 | [] => ""
                 | pre => "-" ++ String.concat "." (map identifier_text pre)
                 end.
Proof.
  unfold format, main_text. rewrite !append_assoc. reflexivity.
Qed.

Lemma prerelease_identifier_Some (s : string) (i : Identifier) :
  prerelease_identifier s = Some i ->
  all_chars is_identifier_char s = true /\ valid_identifier i = true.
Proof.
  unfold prerelease_identifier. destruct s as [|c s]; [discriminate|].
  destruct (all_chars is_digit (String c s)) eqn:Hd.
  - intros H. split.
    + exact (all_chars_weaken _ _ _ is_digit_identifier_char Hd).
    + destruct (numeric_identifier (String c s)); inversion H. reflexivity.
  - destruct (all_chars is_identifier_char (String c s)) eqn:Hi; [|discriminate].
    intros H. inversion H. split; [reflexivity|].
    unfold valid_identifier, prerelease_identifier. rewrite Hd, Hi. reflexivity.
Qed.

Lemma prerelease_identifier_text (i : Identifier) :
  valid_identifier i = true -> prerelease_identifier (identifier_text i) = Some i.
Proof.
  destruct i as [n|s]; simpl.
  - intros _. unfold prerelease_identifier.
    pose proof (number_text_nonempty n) as Hne.
    destruct (number_text n) eqn:E; [contradiction|]. rewrite <- E.
    rewrite number_text_digits, numeric_identifier_number_text. reflexivity.
  - unfold prerelease_identifier. destruct s as [|c s]; [discriminate|].
    destruct (all_chars is_digit (String c s)).
    + destruct (numeric_identifier (String c s)); discriminate.
    + destruct (all_chars is_identifier_char (String c s)); [reflexivity | discriminate].
Qed.

Lemma traverse_valid (l : list Identifier) :
  forallb valid_identifier l = true ->
  traverse prerelease_identifier (map identifier_text l) = Some l.
Proof.
  induction l as [|i l IH]; simpl.
  - reflexivity.
  - intros H. apply andb_true_iff in H. destruct H as [Hi Hl].
    rewrite (prerelease_identifier_text i Hi), (IH Hl). reflexivity.
Qed.

Lemma traverse_Some {A B} (f : A -> option B) (l : list A) (l' : list B) :
  traverse f l = Some l' -> Forall2 (fun a b => f a = Some b) l l'.
Proof.
  revert l'. induction l as [|a l IH]; simpl; intros l' H.
  - inversion H. constructor.
  - destruct (f a) eqn:Ha; [|discriminate].
    destruct (traverse f l) eqn:Hl; [|discriminate].
    inversion H. constructor; [exact Ha | apply IH; reflexivity].
Qed.

Lemma traverse_chars (texts : list string) (l : list Identifier) :
  traverse prerelease_identifier texts = Some l ->
  forallb (all_chars is_identifier_char) texts = true /\ forallb valid_identifier l = true.
Proof.
  intros H. apply traverse_Some in H.
  induction H as [|t i texts l Hti _ IH]; simpl.
  - split; reflexivity.
  - destruct (prerelease_identifier_Some _ _ Hti) as [Ht Hi]. destruct IH as [Hts Hl].
    rewrite Ht, Hi, Hts, Hl. split; reflexivity.
Qed.

Lemma forallb_weaken {A} (p q : A -> bool) (l : list A) :
  (forall a, p a = true -> q a = true) -> forallb p l = true -> forallb q l = true.
Proof.
  intros Hpq. induction l as [|a l IH]; simpl.
  - reflexivity.
  - intros H. apply andb_true_iff in H. destruct H as [Ha Hl].
    rewrite (Hpq a Ha), (IH Hl). reflexivity.
Qed.

Lemma concat_chars (p : ascii -> bool) (sep : ascii) (texts : list string) :
  p sep = true -> forallb (all_chars p) texts = true ->
  all_chars p (String.concat (String sep EmptyString) texts) = true.
Proof.
  intros Hsep. induction texts as [|t texts IH]; simpl.
  - reflexivity.
  - intros H. apply andb_true_iff in H. destruct H as [Ht Hts].
    destruct texts as [|t' texts'].
    + exact Ht.
    + rewrite all_chars_app, Ht. cbn [append all_chars]. rewrite Hsep. exact (IH Hts).
Qed.

Lemma strip_v_digits (s t : string) :
  s <> "" -> all_chars is_digit s = true -> strip_v (s ++ t) = s ++ t.
Proof.
  destruct s as [|c s]; [contradiction|]. intros _ H. simpl in H.
  apply andb_true_iff in H. destruct H as [Hc _]. simpl.
  destruct c as [[] [] [] [] [] [] [] []]; try reflexivity; discriminate.
Qed.

Lemma main_text_chars (p : ascii -> bool) (v : SemVer) :
  (forall x, is_digit x = true -> p x = true) -> p "."%char = true ->
  all_chars p (main_text v) = true.
Proof.
  intros Hd Hdot. unfold main_text.
  rewrite !all_chars_app. cbn [append all_chars]. rewrite Hdot.
  rewrite !(all_chars_weaken _ _ _ Hd (number_text_digits _)). reflexivity.
Qed.

Lemma split_main_text (v : SemVer) :
  split "." (main_text v) =
  [number_text (sv_major v); number_text (sv_minor v); number_text (sv_patch v)].
Proof.
  assert (Hnum : forall n, all_chars (other_than ".") (number_text n) = true).
  { intros n. apply (all_chars_weaken is_digit); [|apply number_text_digits].
    apply is_digit_other_than. reflexivity. }
  unfold main_text. cbn [append].
  rewrite (split_first "." _ _ (Hnum _)), (split_first "." _ _ (Hnum _)).
  rewrite (split_absent "." _ (Hnum _)). reflexivity.
Qed.

Lemma traverse_main_text (v : SemVer) :
  traverse numeric_identifier (split "." (main_text v)) =
  Some [sv_major v; sv_minor v; sv_patch v].
Proof.
  rewrite split_main_text. simpl. rewrite !numeric_identifier_number_text. reflexivity.
Qed.

(** Parsing what [format] printed gives the version back, with the
    identifiers as they are read again and no build metadata. *)
Lemma parse_format (v : SemVer) (pre : list Identifier) :
  traverse prerelease_identifier (map identifier_text (sv_prerelease v)) = Some pre ->
  parse (format v) = Some (mkSemVer (sv_major v) (sv_minor v) (sv_patch v) pre []).
Proof.
  intros Hpre. rewrite format_main_text. unfold parse.
  assert (Hstrip : forall t, strip_v (main_text v ++ t) = main_text v ++ t).
  { intros t. unfold main_text. rewrite append_assoc.
    apply strip_v_digits; [apply number_text_nonempty | apply number_text_digits]. }
  rewrite Hstrip.
  assert (Hplus : all_chars (other_than "+") (main_text v) = true)
    by (apply main_text_chars; [apply is_digit_other_than|]; reflexivity).
  assert (Hminus : all_chars (other_than "-") (main_text v) = true)
    by (apply main_text_chars; [apply is_digit_other_than|]; reflexivity).
  destruct (sv_prerelease v) as [|i l] eqn:E.
  - simpl in Hpre. inversion Hpre. rewrite append_empty.
    rewrite (cut_absent "+" _ Hplus), (cut_absent "-" _ Hminus).
    rewrite traverse_main_text. reflexivity.
  - destruct (traverse_chars _ _ Hpre) as [Hchars _].
    cbn [append map] in *.
    rewrite cut_absent.
    + rewrite (cut_first "-" _ _ Hminus), traverse_main_text.
      rewrite split_concat.
      * rewrite Hpre. reflexivity.
      * revert Hchars. apply forallb_weaken. intros t.
        apply all_chars_weaken, is_identifier_char_other_than. reflexivity.
    + rewrite all_chars_app, Hplus. cbn [all_chars andb other_than].
      apply concat_chars; [reflexivity|].
      revert Hchars. apply forallb_weaken. intros t.
      apply all_chars_weaken, is_identifier_char_other_than. reflexivity.
Qed.

Example parse_format_example :
  parse (format (mkSemVer 1 20 0 [Alnum "rc"; Num 7] ["build"])) =
  Some (mkSemVer 1 20 0 [Alnum "rc"; Num 7] []).
Proof. apply parse_format. reflexivity. Qed.


Lemma parse_valid (s : string) (v : SemVer) :
  parse s = Some v -> forallb valid_identifier (sv_prerelease v) = true.
Proof.
  unfold parse. destruct (cut "+" (strip_v s)) as [rest build].
  destruct (cut "-" rest) as [main prerelease].
  destruct (traverse numeric_identifier (split "." main)) as [[|ma [|mi [|pa [|]]]]|];
    try discriminate.
  destruct prerelease as [p|].
  - destruct (traverse prerelease_identifier (split "." p)) as [pre|] eqn:Hpre;
      [|discriminate].
    destruct (match build with Some b => _ | None => _ end); [|discriminate].
    intros H. inversion H. simpl. destruct (traverse_chars _ _ Hpre) as [_ Hvalid].
    exact Hvalid.
  - destruct (match build with Some b => _ | None => _ end); [|discriminate].
    intros H. inversion H. reflexivity.
Qed.

(** *** The ordering of an increment *)

Lemma String_compare_refl (s : string) : String.compare s s = Eq.
Proof.
  pose proof (String.compare_antisym s s) as H.
  destruct (String.compare s s); try reflexivity; discriminate.
Qed.

Lemma compareIdentifiers_refl (a : Identifier) : compareIdentifiers a a = Eq.
Proof. destruct a; simpl; [apply N.compare_refl | apply String_compare_refl]. Qed.

Lemma compare_identifiers_refl (p : list Identifier) : compare_identifiers p p = Eq.
Proof.
  induction p as [|a p IH]; simpl; [reflexivity|].
  rewrite compareIdentifiers_refl. exact IH.
Qed.

Lemma compare_versions_refl (v : SemVer) : compare_versions v v = Eq.
Proof.
  unfold compare_versions, compareMain, comparePre. rewrite !N.compare_refl.
  destruct (sv_prerelease v) eqn:E; [reflexivity|].
  apply compare_identifiers_refl.
Qed.

Lemma succ_greater (n : N) : (n + 1 ?= n)%N = Gt.
Proof. apply N.compare_gt_iff. lia. Qed.

Lemma bump_last_numeric_greater (p p' : list Identifier) :
  bump_last_numeric p = Some p' ->
  compare_identifiers p' p = Gt
  /\ p' <> []
  /\ (forallb valid_identifier p = true -> forallb valid_identifier p' = true).
Proof.
  revert p'. induction p as [|x p IH]; simpl; intros p' H; [discriminate|].
  destruct (bump_last_numeric p) as [rest|].
  - inversion H; subst p'. destruct (IH rest eq_refl) as [Hgt [_ Hvalid]].
    simpl. rewrite compareIdentifiers_refl. repeat split; [exact Hgt | discriminate |].
    intros Hv. apply andb_true_iff in Hv. destruct Hv as [Hx Hp].
    rewrite Hx, (Hvalid Hp). reflexivity.
  - destruct x as [n|]; [|discriminate]. inversion H; subst p'. simpl.
    rewrite succ_greater. repeat split; [discriminate | intros Hv; exact Hv].
Qed.

Lemma append_greater (p : list Identifier) (x : Identifier) :
  compare_identifiers (p ++ [x]) p = Gt.
Proof.
  induction p as [|a p IH]; simpl; [reflexivity|].
  rewrite compareIdentifiers_refl. exact IH.
Qed.

(** Continuing a prerelease without an identifier goes up. *)
Lemma inc_pre_continue (identifier : option string) (p : list Identifier) :
  preid_argument identifier = None -> p <> [] ->
  compare_identifiers (inc_pre identifier p) p = Gt
  /\ inc_pre identifier p <> []
  /\ (forallb valid_identifier p = true ->
      forallb valid_identifier (inc_pre identifier p) = true).
Proof.
  intros Hid Hp. unfold inc_pre. rewrite Hid.
  destruct p as [|a p]; [contradiction|].
  destruct (bump_last_numeric (a :: p)) as [p'|] eqn:E.
  - exact (bump_last_numeric_greater _ _ E).
  - repeat split.
    + apply append_greater.
    + discriminate.
    + intros H. rewrite forallb_app, H. reflexivity.
Qed.

(** What [inc_pre] gives can be printed and read again. *)
Lemma inc_pre_printable (identifier : option string) (p : list Identifier) :
  forallb valid_identifier p = true ->
  (forall id, preid_argument identifier = Some id -> valid_preid id = true) ->
  exists pre,
    traverse prerelease_identifier (map identifier_text (inc_pre identifier p)) = Some pre
    /\ (preid_argument identifier = None -> pre = inc_pre identifier p).
Proof.
  intros Hp Hid.
  assert (Hbumped :
            forallb valid_identifier
              match p with
              | [] => [Num 0]
              | _ :: _ => match bump_last_numeric p with
                          | Some p' => p'
                          | None => (p ++ [Num 0])%list
                          end
              end = true).
  { destruct p as [|a p]; [reflexivity|].
    destruct (bump_last_numeric (a :: p)) as [p'|] eqn:E.
    - exact (proj2 (proj2 (bump_last_numeric_greater _ _ E)) Hp).
    - rewrite forallb_app, Hp. reflexivity. }
  unfold inc_pre.
  destruct (preid_argument identifier) as [id|].
  - assert (Hfresh : exists pre,
               traverse prerelease_identifier (map identifier_text [Alnum id; Num 0])
               = Some pre /\ (Some id = None -> pre = [Alnum id; Num 0])).
    { specialize (Hid id eq_refl). unfold valid_preid in Hid. simpl.
      destruct (prerelease_identifier id) as [i|]; [|discriminate].
      exists [i; Num 0]. split; [reflexivity | discriminate]. }
    match goal with
    | |- context [match ?b with [] => _ | _ :: _ => _ end] => destruct b as [|first rest]
    end; [exact Hfresh|].
    destruct (same_identifier first id); [|exact Hfresh].
    destruct rest as [|[n|s] rest]; try exact Hfresh.
    eexists. split; [apply traverse_valid; exact Hbumped | discriminate].
  - eexists. split; [apply traverse_valid; exact Hbumped | reflexivity].
Qed.


(** *** A [prerelease] increment under an identifier *)

Lemma inc_pre_Some (identifier : option string) (id : string) (p : list Identifier) :
  preid_argument identifier = Some id ->
  inc_pre identifier p =
  match inc_pre None p with
  | first :: rest =>
      if same_identifier first id
      then match rest with
           | Num _ :: _ => inc_pre None p
           | _ => [Alnum id; Num 0]
           end
      else [Alnum id; Num 0]
  | [] => [Alnum id; Num 0]
  end.
Proof. intros H. unfold inc_pre. rewrite H. reflexivity. Qed.

Lemma numeric_identifier_digits_value (s : string) (n : N) :
  numeric_identifier s = Some n -> digits_value s = Some n.
Proof.
  unfold numeric_identifier.
  destruct s as [|c [|c' s']]; try (intros H; exact H);
    destruct c as [[] [] [] [] [] [] [] []]; intros H; try exact H; discriminate.
Qed.

Lemma prerelease_identifier_Num (id : string) (n : N) :
  prerelease_identifier id = Some (Num n) -> digits_value id = Some n.
Proof.
  unfold prerelease_identifier. destruct id as [|c s]; [discriminate|].
  destruct (all_chars is_digit (String c s)).
  - destruct (numeric_identifier (String c s)) as [k|] eqn:E; [|discriminate].
    intros H. inversion H; subst k. apply numeric_identifier_digits_value. exact E.
  - destruct (all_chars is_identifier_char (String c s)); discriminate.
Qed.

Lemma prerelease_identifier_Alnum (id s : string) :
  prerelease_identifier id = Some (Alnum s) -> s = id.
Proof.
  unfold prerelease_identifier. destruct id as [|c t]; [discriminate|].
  destruct (all_chars is_digit (String c t)).
  - destruct (numeric_identifier (String c t)); discriminate.
  - destruct (all_chars is_identifier_char (String c t)); [|discriminate].
    intros H. inversion H. reflexivity.
Qed.

(** The identifier the caller gives and an identifier of the version are
    the same for [inc] when they rank the same. *)
Lemma same_identifier_of_Eq (a i : Identifier) (id : string) :
  prerelease_identifier id = Some i -> compareIdentifiers i a = Eq ->
  same_identifier a id = true.
Proof.
  intros Hi Hc. destruct i as [k|s]; destruct a as [n|t]; simpl in Hc; try discriminate.
  - apply N.compare_eq_iff in Hc. subst k. simpl.
    rewrite (prerelease_identifier_Num _ _ Hi). apply N.eqb_refl.
  - apply String.compare_eq_iff in Hc. subst t. simpl.
    rewrite (prerelease_identifier_Alnum _ _ Hi). apply String.eqb_refl.
Qed.

Lemma digits_value_digits (s : string) (n : N) :
  digits_value s = Some n -> all_chars is_digit s = true.
Proof.
  unfold digits_value. destruct s as [|c s]; [discriminate|].
  destruct (all_chars is_digit (String c s)); [reflexivity | discriminate].
Qed.

Lemma prerelease_identifier_Alnum_digits (id s : string) :
  prerelease_identifier id = Some (Alnum s) -> all_chars is_digit id = false.
Proof.
  unfold prerelease_identifier. destruct id as [|c t]; [discriminate|].
  destruct (all_chars is_digit (String c t)); [|reflexivity].
  destruct (numeric_identifier (String c t)); discriminate.
Qed.

Lemma Eq_of_same_identifier (a i : Identifier) (id : string) :
  valid_identifier a = true ->
  prerelease_identifier id = Some i -> same_identifier a id = true ->
  compareIdentifiers i a = Eq.
Proof.
  intros Ha Hi Hs. destruct a as [n|t]; simpl in Hs.
  - destruct (digits_value id) as [m|] eqn:Hd; [|discriminate].
    apply N.eqb_eq in Hs. subst m. destruct i as [k|s].
    + rewrite (prerelease_identifier_Num _ _ Hi) in Hd. inversion Hd. simpl.
      apply N.compare_refl.
    + apply digits_value_digits in Hd.
      rewrite (prerelease_identifier_Alnum_digits _ _ Hi) in Hd. discriminate.
  - apply String.eqb_eq in Hs. subst t. simpl in Ha.
    rewrite Hi in Ha. destruct i as [k|s]; [discriminate|].
    rewrite (prerelease_identifier_Alnum _ _ Hi). simpl. apply String_compare_refl.
Qed.

Lemma bump_last_numeric_Num (m : N) (l : list Identifier) :
  exists m' l', bump_last_numeric (Num m :: l) = Some (Num m' :: l').
Proof.
  simpl. destruct (bump_last_numeric l); eexists; eexists; reflexivity.
Qed.

(** The identifiers as continued without an identifier: the head is the
    old one, or the old number plus one. *)
Lemma inc_pre_None_head (a : Identifier) (rest : list Identifier) :
  exists first rest',
    inc_pre None (a :: rest) = first :: rest'
    /\ (first = a \/ exists n, a = Num n /\ first = Num (n + 1)).
Proof.
  unfold inc_pre. cbn [preid_argument truthy bump_last_numeric].
  destruct (bump_last_numeric rest) as [r|].
  - exists a, r. split; [reflexivity | left; reflexivity].
  - destruct a as [n|s].
    + exists (Num (n + 1)), rest. split; [reflexivity|]. right. exists n. split; reflexivity.
    + exists (Alnum s), (rest ++ [Num 0])%list. split; [reflexivity | left; reflexivity].
Qed.

Lemma inc_pre_None_second_Alnum (a : Identifier) (s : string) (rest : list Identifier) :
  exists first rest', inc_pre None (a :: Alnum s :: rest) = first :: Alnum s :: rest'.
Proof.
  unfold inc_pre. cbn [preid_argument truthy bump_last_numeric].
  destruct (bump_last_numeric rest) as [r|].
  - eexists; eexists; reflexivity.
  - destruct a; eexists; eexists; reflexivity.
Qed.

Lemma fresh_printable (id : string) (i : Identifier) :
  prerelease_identifier id = Some i ->
  traverse prerelease_identifier (map identifier_text [Alnum id; Num 0]) = Some [i; Num 0].
Proof. intros Hi. simpl. rewrite Hi. reflexivity. Qed.

(** Restarting or continuing under an identifier goes up when it does not
    restart below. *)
Lemma inc_pre_restart (identifier : option string) (id : string) (i : Identifier)
    (p : list Identifier) :
  preid_argument identifier = Some id ->
  prerelease_identifier id = Some i ->
  p <> [] ->
  forallb valid_identifier p = true ->
  restarts_below identifier p = false ->
  exists pre,
    traverse prerelease_identifier (map identifier_text (inc_pre identifier p)) = Some pre
    /\ pre <> []
    /\ compare_identifiers pre p = Gt.
Proof.
  intros Hid Hi Hp Hvalid Hbelow.
  destruct (inc_pre_continue None p eq_refl Hp) as [Hgt [Hne Hkept]].
  specialize (Hkept Hvalid).
  assert (Hkeep : exists pre,
             traverse prerelease_identifier (map identifier_text (inc_pre None p)) = Some pre
             /\ pre <> [] /\ compare_identifiers pre p = Gt).
  { exists (inc_pre None p). split; [apply traverse_valid; exact Hkept|].
    split; [exact Hne | exact Hgt]. }
  destruct p as [|a rest]; [contradiction|].
  unfold restarts_below in Hbelow. rewrite Hid, Hi in Hbelow.
  rewrite (inc_pre_Some identifier id _ Hid).
  assert (Hfresh : compare_identifiers [i; Num 0] (a :: rest) = Gt ->
                   exists pre,
                     traverse prerelease_identifier (map identifier_text [Alnum id; Num 0])
                     = Some pre
                     /\ pre <> [] /\ compare_identifiers pre (a :: rest) = Gt).
  { intros H. exists [i; Num 0]. split; [apply fresh_printable; exact Hi|].
    split; [discriminate | exact H]. }
  destruct (compareIdentifiers i a) eqn:Hc; [| discriminate |].
  - destruct rest as [|[m|s] rest2]; [| | discriminate].
    + assert (Hup : compare_identifiers [i; Num 0] [a] = Gt)
        by (simpl; rewrite Hc; reflexivity).
      destruct (inc_pre None [a]) as [|first rest']; [exact (Hfresh Hup)|].
      destruct (same_identifier first id); [|exact (Hfresh Hup)].
      destruct rest' as [|[n|s] rest'']; try exact (Hfresh Hup). exact Hkeep.
    + destruct (bump_last_numeric_Num m rest2) as [m' [l' Hbump]].
      assert (Hb : inc_pre None (a :: Num m :: rest2) = a :: Num m' :: l').
      { unfold inc_pre. cbn [preid_argument truthy].
        change (bump_last_numeric (a :: Num m :: rest2))
          with (match bump_last_numeric (Num m :: rest2) with
                | Some rest' => Some (a :: rest')
                | None => match a with
                          | Num n => Some (Num (n + 1) :: Num m :: rest2)
                          | Alnum _ => None
                          end
                end).
        rewrite Hbump. reflexivity. }
      rewrite Hb in *. rewrite (same_identifier_of_Eq a i id Hi Hc). exact Hkeep.
  - assert (Hup : compare_identifiers [i; Num 0] (a :: rest) = Gt)
      by (simpl; rewrite Hc; reflexivity).
    destruct (inc_pre None (a :: rest)) as [|first rest']; [exact (Hfresh Hup)|].
    destruct (same_identifier first id); [|exact (Hfresh Hup)].
    destruct rest' as [|[n|s] rest'']; try exact (Hfresh Hup). exact Hkeep.
Qed.

(** And it restarts at [identifier.0], below the identifiers it finds, when
    it restarts below. *)
Lemma inc_pre_restarts_below (identifier : option string) (p : list Identifier) :
  forallb valid_identifier p = true ->
  restarts_below identifier p = true ->
  exists id i,
    prerelease_identifier id = Some i
    /\ inc_pre identifier p = [Alnum id; Num 0]
    /\ compare_identifiers [i; Num 0] p = Lt.
Proof.
  intros Hvalid Hbelow. unfold restarts_below in Hbelow.
  destruct (preid_argument identifier) as [id|] eqn:Hid; [|discriminate].
  destruct p as [|a rest]; [discriminate|].
  destruct (prerelease_identifier id) as [i|] eqn:Hi; [|discriminate].
  exists id, i. split; [exact Hi|].
  rewrite (inc_pre_Some identifier id _ Hid).
  destruct (compareIdentifiers i a) eqn:Hc; [| | discriminate].
  - destruct rest as [|[m|s] rest2]; try discriminate.
    destruct (inc_pre_None_second_Alnum a s rest2) as [first [rest' ->]].
    split.
    + destruct (same_identifier first id); reflexivity.
    + simpl. rewrite Hc. reflexivity.
  - split; [|simpl; rewrite Hc; reflexivity].
    destruct (inc_pre_continue None (a :: rest) eq_refl ltac:(discriminate))
      as [_ [_ Hkept]]. specialize (Hkept Hvalid).
    destruct (inc_pre_None_head a rest) as [first [rest' [Hb Hhead]]].
    rewrite Hb in *. cbn [forallb] in Hkept. apply andb_true_iff in Hkept.
    destruct Hkept as [Hfirst _].
    destruct (same_identifier first id) eqn:Hs; [|reflexivity].
    exfalso. pose proof (Eq_of_same_identifier first i id Hfirst Hi Hs) as He.
    destruct Hhead as [-> | [n [-> ->]]].
    + rewrite He in Hc. discriminate.
    + destruct i as [k|t]; simpl in He, Hc; [|discriminate].
      apply N.compare_eq_iff in He. subst k. rewrite succ_greater in Hc. discriminate.
Qed.

Lemma main_greater (w v : SemVer) :
  compareMain w v = Gt -> compare_versions w v = Gt.
Proof. intros H. unfold compare_versions. rewrite H. reflexivity. Qed.

Lemma release_greater (w v : SemVer) :
  compareMain w v = Eq -> sv_prerelease w = [] -> sv_prerelease v <> [] ->
  compare_versions w v = Gt.
Proof.
  intros Hmain Hw Hv. unfold compare_versions, comparePre. rewrite Hmain, Hw.
  destruct (sv_prerelease v); [contradiction | reflexivity].
Qed.

Lemma prerelease_greater (w v : SemVer) :
  compareMain w v = Eq -> sv_prerelease w <> [] -> sv_prerelease v <> [] ->
  compare_identifiers (sv_prerelease w) (sv_prerelease v) = Gt ->
  compare_versions w v = Gt.
Proof.
  intros Hmain Hw Hv Hgt. unfold compare_versions, comparePre. rewrite Hmain.
  destruct (sv_prerelease w) as [|a p]; [contradiction|].
  destruct (sv_prerelease v); [contradiction | exact Hgt].
Qed.

Lemma compareMain_refl (M m p : N) (pre pre' bld bld' : list _) :
  compareMain (mkSemVer M m p pre bld) (mkSemVer M m p pre' bld') = Eq.
Proof. unfold compareMain. simpl. rewrite !N.compare_refl. reflexivity. Qed.

Ltac main_goes_up :=
  apply main_greater; unfold compareMain; simpl;
  rewrite ?N.compare_refl, ?succ_greater; reflexivity.

(** A steady increment of a valid version prints to a version that reads
    as a greater one. *)
Lemma inc_version_increases (v : SemVer) (release : ReleaseIdentifier)
    (identifier : option string) :
  forallb valid_identifier (sv_prerelease v) = true ->
  steady v release identifier ->
  (forall id, preid_argument identifier = Some id -> valid_preid id = true) ->
  exists pre,
    traverse prerelease_identifier
      (map identifier_text (sv_prerelease (inc_version v release identifier))) = Some pre
    /\ compare_versions (reread (inc_version v release identifier) pre) v = Gt.
Proof.
  intros Hvalid Hsteady Hid. destruct v as [M m p pre bld]. simpl in Hvalid.
  assert (Hfresh := inc_pre_printable identifier [] eq_refl Hid).
  destruct release; simpl.
  - (* major *)
    exists []. split; [reflexivity|]. unfold reread, no_prerelease, is_zero. simpl.
    destruct (m =? 0)%N eqn:Em; [|main_goes_up].
    destruct (p =? 0)%N eqn:Ep; [|main_goes_up].
    destruct pre as [|a pre]; [main_goes_up|]. simpl.
    apply N.eqb_eq in Em, Ep. subst m p.
    apply release_greater; [apply compareMain_refl | reflexivity | discriminate].
  - (* minor *)
    exists []. split; [reflexivity|]. unfold reread, no_prerelease, is_zero. simpl.
    destruct (p =? 0)%N eqn:Ep; [|main_goes_up].
    destruct pre as [|a pre]; [main_goes_up|]. simpl.
    apply N.eqb_eq in Ep. subst p.
    apply release_greater; [apply compareMain_refl | reflexivity | discriminate].
  - (* patch *)
    exists []. split; [reflexivity|]. unfold reread, inc_patch, no_prerelease. simpl.
    destruct pre as [|a pre]; [main_goes_up|].
    apply release_greater; [apply compareMain_refl | reflexivity | discriminate].
  - (* premajor *)
    destruct Hfresh as [pre' [Hpre' _]]. exists pre'. split; [exact Hpre'|].
    unfold reread. simpl. main_goes_up.
  - (* preminor *)
    destruct Hfresh as [pre' [Hpre' _]]. exists pre'. split; [exact Hpre'|].
    unfold reread. simpl. main_goes_up.
  - (* prepatch *)
    destruct Hfresh as [pre' [Hpre' _]]. exists pre'. split; [exact Hpre'|].
    unfold reread. simpl. main_goes_up.
  - (* prerelease *)
    unfold no_prerelease. simpl. destruct pre as [|a pre].
    + destruct Hfresh as [pre' [Hpre' _]]. exists pre'. split; [exact Hpre'|].
      unfold reread. simpl. main_goes_up.
    + destruct (preid_argument identifier) as [id|] eqn:Hnone.
      * specialize (Hid id eq_refl). unfold valid_preid in Hid.
        destruct (prerelease_identifier id) as [i|] eqn:Hi; [|discriminate].
        destruct (inc_pre_restart identifier id i (a :: pre) Hnone Hi ltac:(discriminate)
                    Hvalid (Hsteady eq_refl)) as [pre' [Hpre' [Hne Hgt]]].
        exists pre'. split; [exact Hpre'|].
        apply prerelease_greater;
          [apply compareMain_refl | exact Hne | discriminate | exact Hgt].
      * assert (Hid' : forall id, preid_argument identifier = Some id -> valid_preid id = true)
          by (intros id E; rewrite Hnone in E; discriminate).
        destruct (inc_pre_printable identifier (a :: pre) Hvalid Hid')
          as [pre' [Hpre' Hsame]].
        destruct (inc_pre_continue identifier (a :: pre) Hnone ltac:(discriminate))
          as [Hgt [Hne _]].
        exists pre'. split; [exact Hpre'|]. rewrite (Hsame Hnone).
        apply prerelease_greater;
          [apply compareMain_refl | exact Hne | discriminate | exact Hgt].
Qed.

(** [semver.inc] on a valid version, for a steady increment and a valid
    identifier, gives a version above the one it starts from. *)
Lemma inc_increases (version : string) (v : SemVer) (release : ReleaseIdentifier)
    (identifier : option string) :
  parse version = Some v ->
  steady v release identifier ->
  (forall id, preid_argument identifier = Some id -> valid_preid id = true) ->
  exists next, inc version release identifier = Some next
               /\ compare next version = Some Gt.
Proof.
  intros Hv Hsteady Hid.
  destruct (inc_version_increases v release identifier (parse_valid _ _ Hv) Hsteady Hid)
    as [pre [Hpre Hgt]].
  exists (format (inc_version v release identifier)). split.
  - unfold inc. rewrite Hv. reflexivity.
  - unfold compare. rewrite (parse_format _ _ Hpre), Hv. f_equal. exact Hgt.
Qed.

(** A [prerelease] increment that restarts below gives a version below
    the one it starts from. *)
Lemma inc_goes_down (version : string) (v : SemVer) (identifier : option string) :
  parse version = Some v ->
  restarts_below identifier (sv_prerelease v) = true ->
  exists next, inc version prerelease identifier = Some next
               /\ compare next version = Some Lt.
Proof.
  intros Hv Hbelow.
  destruct (inc_pre_restarts_below identifier _ (parse_valid _ _ Hv) Hbelow)
    as [id [i [Hi [Hfresh Hlt]]]].
  exists (format (inc_version v prerelease identifier)). split.
  - unfold inc. rewrite Hv. reflexivity.
  - destruct v as [M m p pre bld]. simpl in *.
    destruct pre as [|a pre]; [discriminate Hlt|].
    unfold compare. cbn [inc_version no_prerelease sv_prerelease sv_major sv_minor sv_patch].
    rewrite (parse_format _ [i; Num 0]).
    + rewrite Hv. f_equal. unfold compare_versions.
      rewrite compareMain_refl. unfold comparePre. simpl sv_prerelease. exact Hlt.
    + simpl sv_prerelease. rewrite Hfresh. apply fresh_printable. exact Hi.
Qed.

Lemma compare_same (version : string) (v : SemVer) :
  parse version = Some v -> compare version version = Some Eq.
Proof. intros H. unfold compare. rewrite H, compare_versions_refl. reflexivity. Qed.

End NodeSemverFacts.

Section Classifier.

Context `{W : Collaborators}.

Variables (commitParserOptions : option CommitParserOptions) (skipCommitTypes : list string).

Lemma shouldCommitBeCalculated_false (commit : string) :
  shouldCommitBeCalculated commit commitParserOptions skipCommitTypes = false <->
  skippable commitParserOptions skipCommitTypes commit.
Proof.
  unfold shouldCommitBeCalculated, skippable.
  rewrite negb_false_iff, existsb_exists. split.
  - intros [typeToSkip [Hin Heq]].
    destruct (parseConventionalCommitsSync _ _) as [t|]; [|discriminate].
    apply String.eqb_eq in Heq. subst. exists t. split; [reflexivity | assumption].
  - intros [t [-> Hin]]. exists t. split; [assumption | apply String.eqb_refl].
Qed.

Lemma qualifying_nil (commits : list string) :
  (forall commit, In commit commits -> skippable commitParserOptions skipCommitTypes commit) ->
  qualifying commitParserOptions skipCommitTypes commits = [].
Proof.
  unfold qualifying. induction commits as [|c cs IH]; intros H; simpl.
  - reflexivity.
  - assert (Hc : shouldCommitBeCalculated c commitParserOptions skipCommitTypes = false)
      by (apply shouldCommitBeCalculated_false, H; left; reflexivity).
    rewrite Hc. apply IH. intros c' Hin. apply H. right. assumption.
Qed.

End Classifier.

Section Orchestrator.

Context `{W : Collaborators}.

Variable o : TryBumpOptions.

Let last := resolvedLastVersion o.

Lemma length_zero_nil {A} (l : list A) : (length l =? 0)%nat = true <-> l = [].
Proof. destruct l; simpl; split; intros H; try reflexivity; discriminate. Qed.

Lemma length_zero_cons {A} (l : list A) : (length l =? 0)%nat = false <-> l <> [].
Proof.
  destruct l; simpl; split; intros H; try discriminate; try reflexivity.
  contradiction.
Qed.

Lemma tryBump_manual (r : ReleaseIdentifier) :
  manual_release (releaseType o) = Some r ->
  emitted (tryBump o) =
  let version := emitted (_manualBump last r (preid o)) in
  if truthy version
  then Some {| NewVersion.version := or_else version last;
               NewVersion.previousVersion := last;
               NewVersion.dependencyUpdates := [] |}
  else None.
Proof.
  intros H. unfold tryBump. rewrite emitted_bind. fold (resolved o).
  rewrite H. rewrite emitted_fmap. exact (if_truthy_or_else _ last _).
Qed.

Lemma tryBump_manual_logged (r : ReleaseIdentifier) :
  manual_release (releaseType o) = Some r ->
  logged (tryBump o) =
  logged (getProjectVersion (tagPrefix o) (projectRoot o) (releaseType o) None
            (projectName o) (preid o)).
Proof.
  intros H. unfold tryBump. rewrite logged_bind. fold (resolved o).
  rewrite H. rewrite logged_fmap. unfold _manualBump. rewrite logged_ret.
  apply app_nil_r.
Qed.

Lemma tryBump_automatic :
  manual_release (releaseType o) = None ->
  emitted (tryBump o) =
  emitted (decide o last (commits (resolved o)) (Version.make project (projectBump o) None)
             (dependencyVersionsOf o)).
Proof.
  intros H. unfold tryBump. rewrite emitted_bind. fold (resolved o).
  rewrite H. rewrite !emitted_bind, emitted_fmap. reflexivity.
Qed.

Section Decision.

Variables (lastVersion : string) (commits : list string)
  (projectVersion : option string) (dependencyVersions : list Version.t).

Let dependencyUpdates := filter _isNewVersion dependencyVersions.

Lemma decide_forced_patch :
  projectVersion = None -> dependencyUpdates <> [] ->
  emitted (decide o lastVersion commits (Version.make project projectVersion None)
             dependencyVersions) =
  let version := emitted (_manualBump lastVersion patch (preid o)) in
  if truthy version
  then Some {| NewVersion.version := or_else version lastVersion;
               NewVersion.previousVersion := lastVersion;
               NewVersion.dependencyUpdates := dependencyUpdates |}
  else None.
Proof.
  intros -> Hdeps. unfold decide. cbn [Version.version]. fold dependencyUpdates.
  apply length_zero_cons in Hdeps. rewrite Hdeps. cbn [is_null negb andb].
  rewrite emitted_fmap. cbv zeta. rewrite (if_truthy_or_else _ lastVersion).
  destruct (truthy (emitted (_manualBump lastVersion patch (preid o)))) eqn:Ht;
    [|reflexivity].
  cbn [NewVersion.dependencyUpdates]. rewrite (or_else_Some_or_else _ _ Ht). reflexivity.
Qed.

Lemma decide_no_forced_patch :
  projectVersion <> None \/ dependencyUpdates = [] ->
  emitted (decide o lastVersion commits (Version.make project projectVersion None)
             dependencyVersions) =
  if (length dependencyUpdates =? 0)%nat
     && (length (qualifying (commitParserOptions o) (skipCommitTypes o) commits) =? 0)%nat
     && negb (truthy_flag (allowEmptyRelease o))
  then None
  else Some {| NewVersion.version := or_else projectVersion lastVersion;
               NewVersion.previousVersion := lastVersion;
               NewVersion.dependencyUpdates := dependencyUpdates |}.
Proof.
  intros H. unfold decide. cbn [Version.version]. fold dependencyUpdates.
  replace (is_null projectVersion && negb (length dependencyUpdates =? 0)%nat) with false.
  - unfold qualifying.
    match goal with |- context [if ?b then ret None else _] => destruct b end; reflexivity.
  - symmetry. destruct H as [H | H].
    + destruct projectVersion; [reflexivity | contradiction].
    + rewrite H. simpl. apply andb_false_r.
Qed.

End Decision.

End Orchestrator.

(** ** The release orchestrator *)

Section TryBump.

Context `{W : Collaborators}.

Variable o : TryBumpOptions.

Let last := resolvedLastVersion o.

Lemma automatic_manual_release : automatic o -> manual_release (releaseType o) = None.
Proof. intros H. apply manual_release_None. exact H. Qed.

(** C1. When the caller supplies a release type other than [prerelease],
    the result of [tryBump] is that of the manual bump of the resolved last
    version alone: a version string (non-empty, as the code tests it) gives
    [{version, previousVersion: lastVersion, dependencyUpdates: []}], [null]
    gives no release, and nothing is logged beyond the primary project's
    tag lookup (no dependency is resolved). *)
Theorem tryBump_manual_override (r : ReleaseIdentifier) :
  releaseType o = Some r -> r <> prerelease ->
  (forall version,
      emitted (_manualBump last r (preid o)) = Some version -> version <> "" ->
      emitted (tryBump o) =
      Some {| NewVersion.version := version;
              NewVersion.previousVersion := last;
              NewVersion.dependencyUpdates := [] |})
  /\ (emitted (_manualBump last r (preid o)) = None -> emitted (tryBump o) = None)
  /\ emitted (_manualBump last r (preid o)) = semver_inc last r (preid_argument (preid o))
  /\ logged (tryBump o) =
     logged (getProjectVersion (tagPrefix o) (projectRoot o) (releaseType o) None
               (projectName o) (preid o)).
Proof.
  intros Hr Hne.
  pose proof (manual_release_Some _ _ Hr Hne) as Hm.
  repeat split.
  - intros version Hv Hnonempty. rewrite (tryBump_manual o r Hm). fold last.
    cbv zeta. rewrite Hv, (truthy_Some _ Hnonempty). simpl.
    apply truthy_Some in Hnonempty. simpl in Hnonempty. rewrite Hnonempty. reflexivity.
  - intros Hv. rewrite (tryBump_manual o r Hm). fold last. cbv zeta. rewrite Hv.
    reflexivity.
  - apply (tryBump_manual_logged o r Hm).
Qed.

(** C2. On the automatic path, when the primary project's automatic bump
    is [null] and the filtered dependency updates are not empty, the
    version of the result is the [patch] increment of the resolved last
    version, which is also its [previousVersion]; when that increment fails
    there is no release. *)
Theorem tryBump_forced_patch :
  automatic o -> projectBump o = None -> dependencyUpdatesOf o <> [] ->
  (forall version,
      emitted (_manualBump last patch (preid o)) = Some version -> version <> "" ->
      emitted (tryBump o) =
      Some {| NewVersion.version := version;
              NewVersion.previousVersion := last;
              NewVersion.dependencyUpdates := dependencyUpdatesOf o |})
  /\ (emitted (_manualBump last patch (preid o)) = None -> emitted (tryBump o) = None)
  /\ (forall nv,
         emitted (tryBump o) = Some nv ->
         NewVersion.previousVersion nv = last
         /\ semver_inc (NewVersion.previousVersion nv) patch (preid_argument (preid o))
            = Some (NewVersion.version nv)).
Proof.
  intros Ha Hp Hd.
  pose proof (tryBump_automatic o (automatic_manual_release Ha)) as Ht.
  rewrite (decide_forced_patch o _ _ _ _ Hp Hd) in Ht. fold last in Ht.
  cbv zeta in Ht. repeat split.
  - intros version Hv Hnonempty. rewrite Ht, Hv, (truthy_Some _ Hnonempty). simpl.
    apply truthy_Some in Hnonempty. simpl in Hnonempty. rewrite Hnonempty. reflexivity.
  - intros Hv. rewrite Ht, Hv. reflexivity.
  - rewrite Ht in H.
    destruct (truthy (emitted (_manualBump last patch (preid o)))); [|discriminate].
    inversion H. reflexivity.
  - rewrite Ht in H.
    destruct (truthy_true_inv (emitted (_manualBump last patch (preid o))))
      as [s [Hs [_ Hor]]].
    + destruct (truthy (emitted (_manualBump last patch (preid o)))); [reflexivity|discriminate].
    + destruct (truthy (emitted (_manualBump last patch (preid o)))); [|discriminate].
      inversion H. simpl. rewrite Hor. exact Hs.
Qed.

(** C3. On the automatic path, when no dependency update is left by the
    filter, every commit of the primary project's window is skippable and
    [allowEmptyRelease] is not set, [tryBump] gives no release. *)
Theorem tryBump_empty_release_suppressed :
  automatic o -> dependencyUpdatesOf o = [] ->
  (forall commit, In commit (commits (resolved o)) ->
                  skippable (commitParserOptions o) (skipCommitTypes o) commit) ->
  truthy_flag (allowEmptyRelease o) = false ->
  emitted (tryBump o) = None.
Proof.
  intros Ha Hd Hskip Hallow.
  rewrite (tryBump_automatic o (automatic_manual_release Ha)).
  rewrite decide_no_forced_patch by (right; exact Hd).
  fold (dependencyUpdatesOf o). rewrite Hd, (qualifying_nil _ _ _ Hskip), Hallow.
  reflexivity.
Qed.

(** C9. On the automatic path, when the primary bump is [null], no
    dependency update is left by the filter and the empty-release
    suppression does not apply ([allowEmptyRelease] is set, or a commit of
    the window qualifies), [tryBump] returns a [NewVersion] whose version is
    the last version unchanged. *)
Theorem tryBump_unchanged_version :
  automatic o -> projectBump o = None -> dependencyUpdatesOf o = [] ->
  truthy_flag (allowEmptyRelease o) = true
  \/ qualifying (commitParserOptions o) (skipCommitTypes o) (commits (resolved o)) <> [] ->
  emitted (tryBump o) =
  Some {| NewVersion.version := last;
          NewVersion.previousVersion := last;
          NewVersion.dependencyUpdates := [] |}.
Proof.
  intros Ha Hp Hd Hrelease.
  rewrite (tryBump_automatic o (automatic_manual_release Ha)).
  rewrite decide_no_forced_patch by (right; exact Hd).
  fold (dependencyUpdatesOf o). rewrite Hd, Hp. simpl.
  destruct Hrelease as [Hallow | Hq].
  - rewrite Hallow, andb_false_r. reflexivity.
  - apply length_zero_cons in Hq. rewrite Hq. reflexivity.
Qed.

(** What a result of [tryBump] is made of, whatever the path: its version
    is the last version or an increment of it, and the increment is by
    [prerelease] only if the caller asked for [prerelease]. *)
Lemma tryBump_Some (nv : NewVersion.t) :
  emitted (tryBump o) = Some nv ->
  NewVersion.previousVersion nv = last
  /\ (NewVersion.dependencyUpdates nv = []
      \/ NewVersion.dependencyUpdates nv = dependencyUpdatesOf o)
  /\ (NewVersion.version nv = last
      \/ exists r p,
           (r = prerelease -> releaseType o = Some prerelease)
           /\ (p = preid o \/ p = preid_argument (preid o))
           /\ semver_inc last r p = Some (NewVersion.version nv)).
Proof.
  intros H. destruct (manual_release (releaseType o)) as [r|] eqn:Hm.
  - rewrite (tryBump_manual o r Hm) in H. fold last in H. cbv zeta in H.
    destruct (or_else_cases (emitted (_manualBump last r (preid o))) last) as [[Ht He]|[Ht _]];
      rewrite Ht in H; [|discriminate].
    inversion H; subst nv; simpl. repeat split; [left; reflexivity|].
    right. exists r, (preid_argument (preid o)).
    destruct (manual_release_inv _ _ Hm) as [_ Hr].
    repeat split; [intros E; contradiction | right; reflexivity | exact He].
  - rewrite (tryBump_automatic o Hm) in H. fold last in H.
    destruct (projectBump o) as [v|] eqn:Hp.
    + rewrite decide_no_forced_patch in H by (left; discriminate).
      match type of H with (if ?b then _ else _) = _ => destruct b end; [discriminate|].
      inversion H; subst nv; simpl. repeat split; [right; reflexivity|].
      destruct (or_else_cases (Some v) last) as [[_ He]|[_ He]]; [|left; exact He].
      right. unfold projectBump, _semverBump in Hp. fold last in Hp.
      destruct (recommendedReleaseType _ _ _) as [r'|] eqn:Hr'; [|discriminate].
      rewrite emitted_ret in Hp. exists r', (preid o).
      repeat split; [|left; reflexivity | rewrite Hp; exact He].
      intros ->. unfold recommendedReleaseType in Hr'.
      destruct (recommended _ _ _ _) as [c|]; [|discriminate].
      destruct (releaseType o) as [[]|]; simpl in Hr'; try reflexivity;
        destruct c; discriminate.
    + destruct (dependencyUpdatesOf o) as [|d ds] eqn:Hd.
      * rewrite decide_no_forced_patch in H by (right; exact Hd).
        match type of H with (if ?b then _ else _) = _ => destruct b end; [discriminate|].
        inversion H; subst nv; simpl. repeat split; [left; exact Hd|].
        left; reflexivity.
      * rewrite decide_forced_patch in H;
          [|reflexivity| fold (dependencyUpdatesOf o); rewrite Hd; discriminate].
        cbv zeta in H.
        destruct (or_else_cases (emitted (_manualBump last patch (preid o))) last)
          as [[Ht He]|[Ht _]]; rewrite Ht in H; [|discriminate].
        inversion H; subst nv; simpl. repeat split.
        -- right. exact Hd.
        -- right. exists patch, (preid_argument (preid o)).
           repeat split; [discriminate | right; reflexivity | exact He].
Qed.

(** C5. The dependency updates of a result of [tryBump] hold no entry
    whose version is [null] and none whose version is the initial version
    ["0.0.0"]. *)
Theorem tryBump_dependencyUpdates_new (nv : NewVersion.t) :
  emitted (tryBump o) = Some nv ->
  forall d, In d (NewVersion.dependencyUpdates nv) ->
            Version.version d <> None /\ Version.version d <> Some "0.0.0".
Proof.
  intros H d Hin. destruct (tryBump_Some nv H) as [_ [[Hd | Hd] _]]; rewrite Hd in Hin.
  - destruct Hin.
  - unfold dependencyUpdatesOf in Hin. apply filter_In in Hin. destruct Hin as [_ Hnew].
    unfold _isNewVersion in Hnew. destruct (Version.version d) as [v|]; [|discriminate].
    split; [discriminate|]. intros Heq. inversion Heq; subst v. discriminate.
Qed.

End TryBump.

(** ** The automatic bump *)

Section SemverBump.

Context `{W : Collaborators}.

Variables (since : string) (preset : PresetOpt) (projectRoot tagPrefix : string)
  (releaseType : option ReleaseIdentifier) (preid : option string)
  (skipUnstable : option bool).

Let bump :=
  emitted (_semverBump since preset projectRoot tagPrefix releaseType preid skipUnstable).

Lemma semverBump_not_recommended :
  recommended preset projectRoot tagPrefix skipUnstable = None -> bump = None.
Proof. intros H. unfold bump, _semverBump. rewrite H. reflexivity. Qed.

Lemma semverBump_recommended (c : Recommendation) :
  recommended preset projectRoot tagPrefix skipUnstable = Some c ->
  bump =
  semver_inc since
    (if is_prerelease releaseType
     then if has_no_prerelease since then pre c else prerelease
     else plain c)
    preid.
Proof.
  intros H. unfold bump, _semverBump, recommendedReleaseType. rewrite H.
  destruct releaseType as [[]|]; simpl; try reflexivity.
  destruct (has_no_prerelease since); reflexivity.
Qed.

(** C6. [_semverBump] gives [null] when no category is recommended; when
    one is and the requested release type is [prerelease], it increments
    [since] by the pre- form of the category if [since] is a version without
    prerelease component, and by plain [prerelease] if [since] has one. *)
Theorem semverBump_prerelease_chain :
  (recommended preset projectRoot tagPrefix skipUnstable = None -> bump = None)
  /\ (forall c v,
         recommended preset projectRoot tagPrefix skipUnstable = Some c ->
         releaseType = Some prerelease ->
         semver_parse since = Some v ->
         (sv_prerelease v = [] -> bump = semver_inc since (pre c) preid)
         /\ (sv_prerelease v <> [] -> bump = semver_inc since prerelease preid)).
Proof.
  split; [exact semverBump_not_recommended|].
  intros c v Hc Hr Hv. rewrite (semverBump_recommended c Hc), Hr. simpl.
  unfold has_no_prerelease. rewrite Hv. split; intros Hpre.
  - rewrite Hpre. reflexivity.
  - destruct (sv_prerelease v); [contradiction | reflexivity].
Qed.

End SemverBump.

(** ** The version window resolver *)

Section WindowResolver.

Context `{W : Collaborators}.

Variables (tagPrefix projectRoot : string) (releaseType : option ReleaseIdentifier)
  (since : option string) (projectName : string) (preid : option string).

Let window := getProjectVersion tagPrefix projectRoot releaseType since projectName preid.
Let derived := getProjectVersion tagPrefix projectRoot releaseType None projectName preid.

(** C7. When the tag lookup fails, [getProjectVersion] still emits a
    window, whose last version is ["0.0.0"], and logs one warning; the
    range reference is the first commit reference when the last version is
    ["0.0.0"] and the formatted tag of the last version otherwise; a [since]
    given by the caller is what the commits are fetched from, while the
    range reference returned is the derived one. *)
Theorem getProjectVersion_window :
  (getLastVersion tagPrefix preid releaseType = None ->
   lastVersion (emitted window) = "0.0.0"
   /\ logged window = [no_tag_warning tagPrefix projectName]
   /\ level (no_tag_warning tagPrefix projectName) = "warn")
  /\ (forall v, getLastVersion tagPrefix preid releaseType = Some v ->
                lastVersion (emitted window) = v /\ logged window = [])
  /\ (lastVersion (emitted window) = "0.0.0" ->
      lastVersionGitRef (emitted window) = getFirstCommitRef)
  /\ (lastVersion (emitted window) <> "0.0.0" ->
      lastVersionGitRef (emitted window) = formatTag tagPrefix (lastVersion (emitted window)))
  /\ lastVersionGitRef (emitted window) = lastVersionGitRef (emitted derived)
  /\ (forall ref, since = Some ref -> commits (emitted window) = getCommits projectRoot ref)
  /\ (since = None ->
      commits (emitted window) = getCommits projectRoot (lastVersionGitRef (emitted window))).
Proof.
  unfold window, derived.
  repeat match goal with |- _ /\ _ => split end.
  - intros H. rewrite window_lastVersion, window_logged, H. repeat split.
  - intros v H. rewrite window_lastVersion, window_logged, H. split; reflexivity.
  - intros H. rewrite window_lastVersionGitRef, H. reflexivity.
  - intros H. rewrite window_lastVersionGitRef. unfold _isInitialVersion.
    destruct (String.eqb_spec
                (lastVersion (emitted (getProjectVersion tagPrefix projectRoot releaseType
                                         since projectName preid))) initialVersion) as [E|E].
    + contradiction.
    + reflexivity.
  - rewrite !window_lastVersionGitRef, !window_lastVersion. reflexivity.
  - intros ref ->. rewrite window_commits. reflexivity.
  - intros ->. rewrite window_commits. reflexivity.
Qed.

End WindowResolver.

(** ** The dependency aggregator *)

Section DependencyAggregator.

Context `{W : Collaborators}.

Variables (commitParserOptions : option CommitParserOptions) (preset : PresetOpt)
  (releaseType : option ReleaseIdentifier) (versionTagPrefix : option string)
  (syncVersions : bool) (lastVersionGitRef : string) (skipCommitTypes : list string)
  (projectName : string) (preid : option string) (skipUnstable : option bool).

Let aggregate (dependencyRoots : list DependencyRoot) : list Version.t :=
  emitted (_getDependencyVersions commitParserOptions preset dependencyRoots releaseType
             versionTagPrefix syncVersions lastVersionGitRef skipCommitTypes projectName
             preid skipUnstable).

Let one (root : DependencyRoot) : Version.t :=
  emitted (dependencyVersion commitParserOptions preset releaseType versionTagPrefix
             syncVersions lastVersionGitRef skipCommitTypes projectName preid skipUnstable
             root).

Lemma aggregate_map (dependencyRoots : list DependencyRoot) :
  aggregate dependencyRoots = map one dependencyRoots.
Proof. unfold aggregate, _getDependencyVersions. apply emitted_forkJoin_map. Qed.

Lemma dependencyVersion_emitted (root : DependencyRoot) :
  let tagPrefix := formatTagPrefix versionTagPrefix (name root) syncVersions in
  let dependencyLastVersion :=
    nullish (getLastVersion tagPrefix preid releaseType) initialVersion in
  let filteredCommits :=
    qualifying commitParserOptions skipCommitTypes
      (getCommits (path root) lastVersionGitRef) in
  one root =
  Version.make dependency
    (match filteredCommits with
     | [] => None
     | _ :: _ =>
         if _isInitialVersion dependencyLastVersion
         then emitted (_semverBump dependencyLastVersion preset (path root) tagPrefix
                         None None skipUnstable)
         else Some dependencyLastVersion
     end)
    (Some (name root)).
Proof.
  cbv zeta. unfold one, dependencyVersion. rewrite emitted_bind.
  rewrite window_commits, window_lastVersion. cbn [nullish]. unfold qualifying.
  destruct (filter _ (getCommits (path root) lastVersionGitRef)) as [|c cs]; simpl.
  - reflexivity.
  - destruct (_isInitialVersion _).
    + rewrite emitted_fmap. reflexivity.
    + reflexivity.
Qed.

(** C8. [_getDependencyVersions] emits one entry per dependency root, in
    the order of the roots, and the empty list for no root. The commits of a
    dependency are those of its root since the primary project's range
    reference, kept by the commit classifier: when none is kept the entry
    has version [null]; when some are kept and the dependency's last version
    is ["0.0.0"] the version is a fresh automatic bump; when some are kept and
    the dependency has a tagged version, the version is that last version. *)
Theorem getDependencyVersions_entries (dependencyRoots : list DependencyRoot) :
  length (aggregate dependencyRoots) = length dependencyRoots
  /\ aggregate [] = []
  /\ forall i root,
       nth_error dependencyRoots i = Some root ->
       let tagPrefix := formatTagPrefix versionTagPrefix (name root) syncVersions in
       let dependencyLastVersion :=
         nullish (getLastVersion tagPrefix preid releaseType) initialVersion in
       let filteredCommits :=
         qualifying commitParserOptions skipCommitTypes
           (getCommits (path root) lastVersionGitRef) in
       exists entry,
         nth_error (aggregate dependencyRoots) i = Some entry
         /\ Version.type entry = dependency
         /\ Version.dependencyName entry = Some (name root)
         /\ (filteredCommits = [] -> Version.version entry = None)
         /\ (filteredCommits <> [] -> dependencyLastVersion = "0.0.0" ->
             Version.version entry =
             emitted (_semverBump "0.0.0" preset (path root) tagPrefix None None skipUnstable))
         /\ (filteredCommits <> [] -> dependencyLastVersion <> "0.0.0" ->
             Version.version entry = Some dependencyLastVersion).
Proof.
  split; [rewrite aggregate_map; apply length_map|].
  split; [reflexivity|].
  intros i root Hroot. cbv zeta. exists (one root).
  split; [rewrite aggregate_map; apply map_nth_error; exact Hroot|].
  rewrite dependencyVersion_emitted. cbv zeta. simpl.
  repeat split.
  - intros ->. reflexivity.
  - intros Hq Hlast.
    destruct (qualifying _ _ _); [contradiction|]. rewrite Hlast. reflexivity.
  - intros Hq Hlast.
    destruct (qualifying _ _ _); [contradiction|].
    unfold _isInitialVersion.
    destruct (String.eqb_spec
                (nullish (getLastVersion
                            (formatTagPrefix versionTagPrefix (name root) syncVersions)
                            preid releaseType) initialVersion) initialVersion) as [E|E].
    + contradiction.
    + reflexivity.
Qed.

End DependencyAggregator.

Section DependencyBump.

Context `{W : Collaborators}.

Variable o : TryBumpOptions.

(** C10. The dependency versions [tryBump] decides on are got without
    [skipUnstable]; for a dependency whose last version is ["0.0.0"] and
    whose commits since the primary range reference qualify, the version is
    the increment of ["0.0.0"] by the recommended category itself, with no
    prerelease identifier, the recommendation being asked with
    [skipUnstable: false], whatever [releaseType], [preid] and [skipUnstable]
    the caller gave. *)
Theorem tryBump_dependency_fresh_bump :
  (automatic o ->
   emitted (tryBump o) =
   emitted (decide o (resolvedLastVersion o) (commits (resolved o)) (projectVersionOf o)
              (dependencyVersionsOf o)))
  /\ forall i root,
       nth_error (dependencyRoots o) i = Some root ->
       let tagPrefix := formatTagPrefix (versionTagPrefix o) (name root) (syncVersions o) in
       nullish (getLastVersion tagPrefix (preid o) (releaseType o)) initialVersion = "0.0.0" ->
       qualifying (commitParserOptions o) (skipCommitTypes o)
         (getCommits (path root) (lastVersionGitRef (resolved o))) <> [] ->
       nth_error (dependencyVersionsOf o) i =
       Some (Version.make dependency
               match recommended (preset o) (path root) tagPrefix (Some false) with
               | Some c => semver_inc "0.0.0" (plain c) None
               | None => None
               end
               (Some (name root))).
Proof.
  split.
  - intros Ha. apply tryBump_automatic, manual_release_None, Ha.
  - intros i root Hroot tagPrefix Hlast Hq.
    unfold dependencyVersionsOf. rewrite aggregate_map.
    rewrite (map_nth_error _ _ _ Hroot). f_equal.
    rewrite dependencyVersion_emitted. cbv zeta. fold tagPrefix.
    destruct (qualifying _ _ _); [contradiction|].
    rewrite Hlast. simpl. f_equal.
    replace (recommended (preset o) (path root) tagPrefix (Some false))
      with (recommended (preset o) (path root) tagPrefix None)
      by (unfold recommended; destruct (preset o); reflexivity).
    destruct (recommended (preset o) (path root) tagPrefix None) as [c|] eqn:Hc.
    + rewrite (semverBump_recommended _ _ _ _ _ _ _ c Hc). reflexivity.
    + apply semverBump_not_recommended. exact Hc.
Qed.

End DependencyBump.

(** ** The previous version and the ordering of the result *)

Section PreviousVersion.

Context `{W : Collaborators}.

Variable o : TryBumpOptions.

Lemma preid_argument_idempotent (preid : option string) :
  preid_argument (preid_argument preid) = preid_argument preid.
Proof.
  unfold preid_argument. destruct (truthy preid) eqn:E; [rewrite E|]; reflexivity.
Qed.

(** The version of a result is the last version or a [semver.inc] of it
    with the caller's [preid]. *)
Lemma tryBump_version_origin (nv : NewVersion.t) :
  emitted (tryBump o) = Some nv ->
  NewVersion.previousVersion nv =
  nullish (getLastVersion (tagPrefix o) (preid o) (releaseType o)) "0.0.0"
  /\ (NewVersion.version nv = NewVersion.previousVersion nv
      \/ exists r p,
           (r = prerelease -> releaseType o = Some prerelease)
           /\ preid_argument p = preid_argument (preid o)
           /\ semver_inc (NewVersion.previousVersion nv) r p = Some (NewVersion.version nv)).
Proof.
  intros H. destruct (tryBump_Some o nv H) as [Hprev [_ Hversion]].
  rewrite Hprev. split.
  - unfold resolvedLastVersion, resolved. apply window_lastVersion.
  - destruct Hversion as [Hv | [r [p [Hr [Hp Hv]]]]].
    + left. exact Hv.
    + right. exists r, p. repeat split; [exact Hr | | exact Hv].
      destruct Hp as [-> | ->]; [reflexivity | apply preid_argument_idempotent].
Qed.

(** C4, as the code has it. The [previousVersion] of a result of
    [tryBump] is the resolved last version of the primary project: the
    version of the last tag, or ["0.0.0"] when the lookup fails. With the
    increment of the [semver] package, when that version is valid and the
    [preid], if one is given, is a valid identifier, the [version] of the
    result is greater than or equal to [previousVersion], unless the caller
    asks for [prerelease] with a [preid] on a last version whose first
    prerelease identifier ranks above the [preid], or is the [preid] and is
    followed by an identifier that is not a number. *)
Theorem tryBump_previous_and_version (nv : NewVersion.t) :
  emitted (tryBump o) = Some nv ->
  NewVersion.previousVersion nv =
  nullish (getLastVersion (tagPrefix o) (preid o) (releaseType o)) "0.0.0"
  /\ forall v,
       (forall version r p, semver_inc version r p = NodeSemver.inc version r p) ->
       NodeSemver.parse (NewVersion.previousVersion nv) = Some v ->
       (forall id, preid_argument (preid o) = Some id -> NodeSemver.valid_preid id = true) ->
       (releaseType o = Some prerelease ->
        NodeSemver.restarts_below (preid o) (sv_prerelease v) = false) ->
       NodeSemver.gte (NewVersion.version nv) (NewVersion.previousVersion nv).
Proof.
  intros H. destruct (tryBump_version_origin nv H) as [Hprev Hversion].
  split; [exact Hprev|].
  intros v Hinc Hv Hid Hsteady.
  destruct Hversion as [-> | [r [p [Hr [Hp Hnext]]]]].
  - right. exact (NodeSemverFacts.compare_same _ v Hv).
  - left. rewrite Hinc in Hnext.
    destruct (NodeSemverFacts.inc_increases (NewVersion.previousVersion nv) v r p Hv)
      as [next [Hnext' Hgt]].
    + intros Er. unfold NodeSemver.restarts_below. rewrite Hp.
      exact (Hsteady (Hr Er)).
    + intros id Hsome. rewrite Hp in Hsome. exact (Hid id Hsome).
    + rewrite Hnext in Hnext'. inversion Hnext'; subst next. exact Hgt.
Qed.

End PreviousVersion.

(** * The properties on the repositories of [Scenario] *)

Section Runs.

Import Scenario.

(** The scenarios of the specification. *)

Example scenario_A :
  emitted (tryBump (options untagged [] None None None)) =
  Some {| NewVersion.version := "0.1.0";
          NewVersion.previousVersion := "0.0.0";
          NewVersion.dependencyUpdates := [] |}.
Proof. reflexivity. Qed.

Example scenario_A_warns :
  logged (tryBump (options untagged [] None None None)) = [no_tag_warning "app-" "app"].
Proof. reflexivity. Qed.

Example scenario_B : emitted (tryBump (options tagged [] None None None)) = None.
Proof. reflexivity. Qed.

Example scenario_C :
  option_map NewVersion.version (emitted (tryBump (options tagged [lib] None None None))) =
  Some "1.2.4".
Proof. reflexivity. Qed.

Example scenario_D :
  option_map NewVersion.version
    (emitted (tryBump (options tagged [lib] (Some major) None None))) = Some "2.0.0".
Proof. reflexivity. Qed.

Example scenario_E :
  emitted (_semverBump "1.0.0" (angular tagged) "libs/util" "util-" (Some prerelease)
             None None) = Some "1.1.0-0".
Proof. reflexivity. Qed.

Lemma tryBump_manual_override_witness :
  emitted (tryBump (options tagged [lib] (Some major) None None)) =
  Some {| NewVersion.version := "2.0.0";
          NewVersion.previousVersion := "1.2.3";
          NewVersion.dependencyUpdates := [] |}.
Proof.
  apply (proj1 (tryBump_manual_override (options tagged [lib] (Some major) None None)
                  major eq_refl ltac:(discriminate)) "2.0.0").
  - reflexivity.
  - discriminate.
Defined.

Lemma tryBump_forced_patch_witness :
  emitted (tryBump (options tagged [lib; util] None None None)) =
  Some {| NewVersion.version := "1.2.4";
          NewVersion.previousVersion := "1.2.3";
          NewVersion.dependencyUpdates :=
            [Version.make dependency (Some "0.4.0") (Some "lib");
             Version.make dependency (Some "0.1.0") (Some "util")] |}.
Proof.
  refine (proj1 (tryBump_forced_patch (options tagged [lib; util] None None None)
                   _ _ _) "1.2.4" _ _).
  - left. reflexivity.
  - reflexivity.
  - vm_compute. discriminate.
  - reflexivity.
  - discriminate.
Defined.

Lemma tryBump_empty_release_suppressed_witness :
  emitted (tryBump (options tagged [] None None None)) = None.
Proof.
  apply tryBump_empty_release_suppressed.
  - left. reflexivity.
  - reflexivity.
  - intros commit Hin. vm_compute in Hin. destruct Hin as [<- | []].
    exists "chore". split; [reflexivity | left; reflexivity].
  - reflexivity.
Defined.

Lemma tryBump_unchanged_version_witness :
  emitted (tryBump (options tagged [] None None (Some true))) =
  Some {| NewVersion.version := "1.2.3";
          NewVersion.previousVersion := "1.2.3";
          NewVersion.dependencyUpdates := [] |}.
Proof.
  apply (tryBump_unchanged_version (options tagged [] None None (Some true))).
  - left. reflexivity.
  - reflexivity.
  - reflexivity.
  - left. reflexivity.
Defined.

Lemma tryBump_dependencyUpdates_new_witness :
  Version.version (Version.make dependency (Some "0.1.0") (Some "util")) <> None
  /\ Version.version (Version.make dependency (Some "0.1.0") (Some "util")) <> Some "0.0.0".
Proof.
  apply (tryBump_dependencyUpdates_new (options tagged [lib; util] None None None)
           {| NewVersion.version := "1.2.4";
              NewVersion.previousVersion := "1.2.3";
              NewVersion.dependencyUpdates :=
                [Version.make dependency (Some "0.4.0") (Some "lib");
                 Version.make dependency (Some "0.1.0") (Some "util")] |}).
  - reflexivity.
  - simpl. right. left. reflexivity.
Defined.

Lemma tryBump_previous_and_version_witness :
  "1.2.3-beta.5"
  = nullish (@getLastVersion (world in_beta) "app-" (Some "beta") (Some prerelease)) "0.0.0"
  /\ NodeSemver.gte "1.2.3-beta.6" "1.2.3-beta.5".
Proof.
  destruct (tryBump_previous_and_version
              (options in_beta [] (Some prerelease) (Some "beta") None)
              {| NewVersion.version := "1.2.3-beta.6";
                 NewVersion.previousVersion := "1.2.3-beta.5";
                 NewVersion.dependencyUpdates := [] |} eq_refl) as [Hprevious Hgte].
  split; [exact Hprevious|].
  apply (Hgte (mkSemVer 1 2 3 [Alnum "beta"; Num 5] [])).
  - intros version r p. reflexivity.
  - reflexivity.
  - intros id Hid. inversion Hid. reflexivity.
  - intros _. reflexivity.
Defined.

(** C4, as stated, fails: on the last version 1.2.0-beta.fooblz a
    [prerelease] bump with the identifier [beta] gives 1.2.0-beta.0, which
    is below it. *)
Lemma tryBump_downgrade :
  ~ never_a_downgrade (options named_beta [] (Some prerelease) (Some "beta") None).
Proof.
  intros H.
  destruct (H {| NewVersion.version := "1.2.0-beta.0";
                 NewVersion.previousVersion := "1.2.0-beta.fooblz";
                 NewVersion.dependencyUpdates := [] |} eq_refl) as [_ [Hgt | Heq]].
  - vm_compute in Hgt. discriminate.
  - vm_compute in Heq. discriminate.
Qed.

(** So does a [prerelease] bump that leaves the train [beta] for [alpha]. *)
Example tryBump_downgrade_to_alpha :
  emitted (tryBump (options in_beta [] (Some prerelease) (Some "alpha") None)) =
  Some {| NewVersion.version := "1.2.3-alpha.0";
          NewVersion.previousVersion := "1.2.3-beta.5";
          NewVersion.dependencyUpdates := [] |}
  /\ NodeSemver.compare "1.2.3-alpha.0" "1.2.3-beta.5" = Some Lt.
Proof. split; reflexivity. Qed.

Lemma semverBump_prerelease_chain_witness :
  emitted (_semverBump "1.2.3" (angular tagged) "apps/app" "app-"
             (Some prerelease) (Some "rc") None) = None
  /\ emitted (_semverBump "1.0.0" (angular tagged) "libs/util" "util-"
                (Some prerelease) (Some "rc") None) = Some "1.1.0-rc.0"
  /\ emitted (_semverBump "1.2.3-beta.5" (angular tagged) "libs/util" "util-"
                (Some prerelease) (Some "beta") None) = Some "1.2.3-beta.6".
Proof.
  split; [|split].
  - apply (proj1 (@semverBump_prerelease_chain (world tagged) "1.2.3" (angular tagged)
                    "apps/app" "app-" (Some prerelease) (Some "rc") None)).
    reflexivity.
  - refine (proj1 (proj2 (@semverBump_prerelease_chain (world tagged) "1.0.0"
                            (angular tagged) "libs/util" "util-" (Some prerelease)
                            (Some "rc") None)
                     recommend_minor (mkSemVer 1 0 0 [] []) _ _ _) _);
      reflexivity.
  - refine (proj2 (proj2 (@semverBump_prerelease_chain (world tagged) "1.2.3-beta.5"
                            (angular tagged) "libs/util" "util-" (Some prerelease)
                            (Some "beta") None)
                     recommend_minor (mkSemVer 1 2 3 [Alnum "beta"; Num 5] []) _ _ _) _);
      try reflexivity.
    discriminate.
Defined.

Lemma getProjectVersion_window_witness :
  lastVersion (emitted (@getProjectVersion (world untagged) "app-" "apps/app" None
                          (Some "a1b2c3") "app" None)) = "0.0.0"
  /\ logged (@getProjectVersion (world untagged) "app-" "apps/app" None
               (Some "a1b2c3") "app" None) = [@no_tag_warning "app-" "app"]
  /\ level (no_tag_warning "app-" "app") = "warn".
Proof.
  apply (proj1 (@getProjectVersion_window (world untagged) "app-" "apps/app" None
                  (Some "a1b2c3") "app" None)).
  reflexivity.
Defined.

Lemma getDependencyVersions_entries_witness :
  exists entry,
    nth_error
      (emitted (_getDependencyVersions None (angular tagged)
                  [lib; util] None None false "app-1.2.3" ["chore"; "docs"] "app" None None))
      1 = Some entry
    /\ Version.type entry = dependency
    /\ Version.dependencyName entry = Some "util"
    /\ Version.version entry = Some "0.1.0".
Proof.
  destruct (proj2 (proj2 (@getDependencyVersions_entries (world tagged) None
                            (angular tagged) None None false "app-1.2.3"
                            ["chore"; "docs"] "app" None None [lib; util]))
              1%nat util eq_refl)
    as [entry [Hnth [Htype [Hname [_ [Hfresh _]]]]]].
  exists entry. repeat split; try assumption.
  rewrite Hfresh.
  - reflexivity.
  - vm_compute. discriminate.
  - reflexivity.
Defined.

Lemma tryBump_dependency_fresh_bump_witness :
  nth_error (dependencyVersionsOf (options tagged [util] (Some prerelease) (Some "rc") None)) 0
  = Some (Version.make dependency (Some "0.1.0") (Some "util")).
Proof.
  apply (proj2 (tryBump_dependency_fresh_bump
                  (options tagged [util] (Some prerelease) (Some "rc") None)) 0%nat util).
  - reflexivity.
  - reflexivity.
  - vm_compute. discriminate.
Defined.

End Runs.

(** * Further properties of the engine *)

(** ** What is logged *)

Lemma logged_forkJoin_map {A B} (f : A -> Observable B) (l : list A) :
  logged (forkJoin (map f l)) = flat_map (fun a => logged (f a)) l.
Proof.
  induction l as [|a l IH]; cbn [map forkJoin flat_map].
  - reflexivity.
  - rewrite logged_bind, logged_bind, logged_ret, IH, List.app_nil_r. reflexivity.
Qed.

Section Logging.

Context `{W : Collaborators}.

Lemma semverBump_logged (since : string) (preset : PresetOpt) (projectRoot tagPrefix : string)
    (releaseType : option ReleaseIdentifier) (preid : option string)
    (skipUnstable : option bool) :
  logged (_semverBump since preset projectRoot tagPrefix releaseType preid skipUnstable) = [].
Proof.
  unfold _semverBump. destruct (recommendedReleaseType _ _ _); reflexivity.
Qed.

Lemma decide_logged (o : TryBumpOptions) (lastVersion : string) (commits : list string)
    (projectVersion : Version.t) (dependencyVersions : list Version.t) :
  logged (decide o lastVersion commits projectVersion dependencyVersions) = [].
Proof.
  unfold decide.
  destruct (is_null (Version.version projectVersion) && _).
  - rewrite logged_fmap. reflexivity.
  - match goal with |- context [if ?b then ret None else _] => destruct b end; reflexivity.
Qed.

Lemma dependencyVersion_logged (commitParserOptions : option CommitParserOptions)
    (preset : PresetOpt) (releaseType : option ReleaseIdentifier)
    (versionTagPrefix : option string) (syncVersions : bool)
    (lastVersionGitRef : string) (skipCommitTypes : list string)
    (projectName : string) (preid : option string) (skipUnstable : option bool)
    (root : DependencyRoot) :
  logged (dependencyVersion commitParserOptions preset releaseType versionTagPrefix
            syncVersions lastVersionGitRef skipCommitTypes projectName preid skipUnstable
            root) =
  match getLastVersion (formatTagPrefix versionTagPrefix (name root) syncVersions)
          preid releaseType with
  | Some _ => []
  | None =>
      [no_tag_warning (formatTagPrefix versionTagPrefix (name root) syncVersions)
         projectName]
  end.
Proof.
  unfold dependencyVersion. rewrite logged_bind, window_logged.
  match goal with |- (_ ++ ?rest)%list = _ => assert (Hrest : rest = []) end.
  { match goal with |- context [if ?b then _ else _] => destruct b end; [reflexivity|].
    match goal with |- context [if ?b then _ else _] => destruct b end; [|reflexivity].
    rewrite logged_fmap. apply semverBump_logged. }
  rewrite Hrest. apply List.app_nil_r.
Qed.

Variable o : TryBumpOptions.

Let warning_of (root : DependencyRoot) : list LogEntry :=
  if untagged_dependency o root
  then [no_tag_warning (dependencyTagPrefix o root) (projectName o)]
  else [].

Lemma tryBump_logged :
  logged (tryBump o) =
  ((if untagged_project o then [no_tag_warning (tagPrefix o) (projectName o)] else [])
   ++ match manual_release (releaseType o) with
      | Some _ => []
      | None => flat_map warning_of (dependencyRoots o)
      end)%list.
Proof.
  unfold tryBump. rewrite logged_bind, window_logged. fold (resolved o).
  f_equal.
  - unfold untagged_project. destruct (getLastVersion _ _ _); reflexivity.
  - destruct (manual_release (releaseType o)).
    + rewrite logged_fmap. reflexivity.
    + rewrite logged_bind, logged_fmap, semverBump_logged, logged_bind, decide_logged.
      rewrite List.app_nil_r. cbn [app].
      unfold _getDependencyVersions. rewrite logged_forkJoin_map.
      apply flat_map_ext. intros root. rewrite dependencyVersion_logged.
      unfold warning_of, untagged_dependency, dependencyTagPrefix.
      destruct (getLastVersion _ _ _); reflexivity.
Qed.

(** X3. Whatever [tryBump] logs is the warning of a failed tag lookup:
    an entry of step [warning] and level [warn] that carries the name of the
    primary project, also when the lookup that failed is that of a
    dependency; its message names the tag prefix of the primary project or
    of a dependency root. *)
Theorem tryBump_logs_only_warnings (e : LogEntry) :
  In e (logged (tryBump o)) ->
  step e = "warning" /\ level e = "warn" /\ log_projectName e = projectName o
  /\ (e = no_tag_warning (tagPrefix o) (projectName o)
      \/ exists root, In root (dependencyRoots o)
                      /\ e = no_tag_warning (dependencyTagPrefix o root) (projectName o)).
Proof.
  rewrite tryBump_logged. intros Hin.
  assert (Hcases :
            e = no_tag_warning (tagPrefix o) (projectName o)
            \/ exists root, In root (dependencyRoots o)
                            /\ e = no_tag_warning (dependencyTagPrefix o root) (projectName o)).
  { apply in_app_or in Hin. destruct Hin as [Hin | Hin].
    - left. destruct (untagged_project o); [|destruct Hin].
      destruct Hin as [<- | []]. reflexivity.
    - right. destruct (manual_release (releaseType o)); [destruct Hin|].
      apply in_flat_map in Hin. destruct Hin as [root [Hroot He]].
      exists root. split; [exact Hroot|]. unfold warning_of in He.
      destruct (untagged_dependency o root); [|destruct He].
      destruct He as [<- | []]. reflexivity. }
  destruct Hcases as [-> | [root [Hroot ->]]]; repeat split; auto.
  right. exists root. split; [exact Hroot | reflexivity].
Qed.

Lemma flat_map_warning_length (roots : list DependencyRoot) :
  length (flat_map warning_of roots) = length (filter (untagged_dependency o) roots).
Proof.
  induction roots as [|root roots IH]; cbn [flat_map filter].
  - reflexivity.
  - rewrite length_app, IH. unfold warning_of.
    destruct (untagged_dependency o root); reflexivity.
Qed.

(** X4. [tryBump] logs one warning for the primary project when its tag
    lookup fails and, on the automatic path, one for each dependency root
    whose lookup fails; on the manual path no dependency is looked up. *)
Theorem tryBump_warning_count :
  length (logged (tryBump o)) =
  ((if untagged_project o then 1 else 0)
   + match manual_release (releaseType o) with
     | Some _ => 0
     | None => length (filter (untagged_dependency o) (dependencyRoots o))
     end)%nat.
Proof.
  rewrite tryBump_logged, length_app. f_equal.
  - destruct (untagged_project o); reflexivity.
  - destruct (manual_release (releaseType o)); [reflexivity|].
    apply flat_map_warning_length.
Qed.

End Logging.

(** ** The outcomes of the automatic path *)

Lemma filter_map_swap {A B} (p : B -> bool) (f : A -> B) (l : list A) :
  filter p (map f l) = map f (filter (fun a => p (f a)) l).
Proof.
  induction l as [|a l IH]; simpl; [reflexivity|].
  destruct (p (f a)); simpl; rewrite IH; reflexivity.
Qed.

Section Outcomes.

Context `{W : Collaborators}.

Variable o : TryBumpOptions.

Let last := resolvedLastVersion o.
Let window_commits_kept :=
  qualifying (commitParserOptions o) (skipCommitTypes o) (commits (resolved o)).
Let patched := emitted (_manualBump last patch (preid o)).

Lemma tryBump_automatic_cases :
  automatic o ->
  emitted (tryBump o) =
  if is_null (projectBump o) && negb (length (dependencyUpdatesOf o) =? 0)%nat then
    if truthy patched
    then Some {| NewVersion.version := or_else patched last;
                 NewVersion.previousVersion := last;
                 NewVersion.dependencyUpdates := dependencyUpdatesOf o |}
    else None
  else if (length (dependencyUpdatesOf o) =? 0)%nat
          && (length window_commits_kept =? 0)%nat
          && negb (truthy_flag (allowEmptyRelease o))
  then None
  else Some {| NewVersion.version := or_else (projectBump o) last;
               NewVersion.previousVersion := last;
               NewVersion.dependencyUpdates := dependencyUpdatesOf o |}.
Proof.
  intros Ha. rewrite (tryBump_automatic o (proj2 (manual_release_None _) Ha)).
  fold last.
  destruct (projectBump o) as [v|] eqn:Hp.
  - rewrite decide_no_forced_patch by (left; discriminate). reflexivity.
  - destruct (dependencyUpdatesOf o) as [|d ds] eqn:Hd.
    + rewrite decide_no_forced_patch by (right; exact Hd).
      fold (dependencyUpdatesOf o). rewrite Hd. reflexivity.
    + rewrite decide_forced_patch;
        [|reflexivity | fold (dependencyUpdatesOf o); rewrite Hd; discriminate].
      fold (dependencyUpdatesOf o). rewrite Hd. reflexivity.
Qed.

(** X1. On the automatic path, when the automatic bump of the primary
    project gives a version and a release is warranted (a dependency update
    passes the filter, a commit of the window qualifies, or
    [allowEmptyRelease] is set), [tryBump] returns that version, with the
    last version as [previousVersion] and the filtered dependency updates. *)
Theorem tryBump_project_bump_used (v : string) :
  automatic o -> projectBump o = Some v -> v <> "" ->
  dependencyUpdatesOf o <> [] \/ window_commits_kept <> []
  \/ truthy_flag (allowEmptyRelease o) = true ->
  emitted (tryBump o) =
  Some {| NewVersion.version := v;
          NewVersion.previousVersion := last;
          NewVersion.dependencyUpdates := dependencyUpdatesOf o |}.
Proof.
  intros Ha Hp Hv Hrelease. rewrite (tryBump_automatic_cases Ha), Hp.
  cbn [is_null andb].
  assert (Hor : or_else (Some v) last = v).
  { simpl. apply truthy_Some in Hv. simpl in Hv. rewrite Hv. reflexivity. }
  rewrite Hor.
  destruct Hrelease as [Hd | [Hq | Hallow]].
  - apply length_zero_cons in Hd. rewrite Hd. reflexivity.
  - apply length_zero_cons in Hq. rewrite Hq, andb_false_r. reflexivity.
  - rewrite Hallow, andb_false_r. reflexivity.
Qed.

(** X2. [tryBump] gives no release in three cases and no other: on the
    manual path when the increment gives no version; on the automatic path
    when the primary bump is [null], a dependency update passes the filter
    and the [patch] increment gives no version; and on the automatic path
    when no dependency update passes, no commit of the window qualifies and
    [allowEmptyRelease] is not set. *)
Theorem tryBump_None_iff :
  emitted (tryBump o) = None <->
  (exists r, releaseType o = Some r /\ r <> prerelease
             /\ truthy (emitted (_manualBump last r (preid o))) = false)
  \/ (automatic o /\ projectBump o = None /\ dependencyUpdatesOf o <> []
      /\ truthy patched = false)
  \/ (automatic o /\ dependencyUpdatesOf o = [] /\ window_commits_kept = []
      /\ truthy_flag (allowEmptyRelease o) = false).
Proof.
  split.
  - intros H. destruct (manual_release (releaseType o)) as [r|] eqn:Hm.
    + left. exists r. destruct (manual_release_inv _ _ Hm) as [Hr Hne].
      repeat split; [exact Hr | exact Hne |].
      rewrite (tryBump_manual o r Hm) in H. fold last in H. cbv zeta in H.
      destruct (truthy (emitted (_manualBump last r (preid o)))); [discriminate|reflexivity].
    + right. apply manual_release_None in Hm.
      rewrite (tryBump_automatic_cases Hm) in H.
      destruct (projectBump o) as [v|] eqn:Hp; cbn [is_null andb] in H.
      * right.
        destruct (length (dependencyUpdatesOf o) =? 0)%nat eqn:Hd; [|discriminate].
        destruct (length window_commits_kept =? 0)%nat eqn:Hq; [|discriminate].
        destruct (truthy_flag (allowEmptyRelease o)); [discriminate|].
        apply length_zero_nil in Hd, Hq. repeat split; assumption.
      * destruct (length (dependencyUpdatesOf o) =? 0)%nat eqn:Hd; cbn [negb] in H.
        -- right.
           destruct (length window_commits_kept =? 0)%nat eqn:Hq; [|discriminate].
           destruct (truthy_flag (allowEmptyRelease o)); [discriminate|].
           apply length_zero_nil in Hd, Hq. repeat split; assumption.
        -- left. apply length_zero_cons in Hd.
           destruct (truthy patched); [discriminate|]. repeat split; assumption.
  - intros [[r [Hr [Hne Ht]]] | [[Ha [Hp [Hd Ht]]] | [Ha [Hd [Hq Hallow]]]]].
    + rewrite (tryBump_manual o r (manual_release_Some _ _ Hr Hne)). fold last.
      cbv zeta. rewrite Ht. reflexivity.
    + rewrite (tryBump_automatic_cases Ha), Hp. apply length_zero_cons in Hd.
      rewrite Hd, Ht. reflexivity.
    + rewrite (tryBump_automatic_cases Ha). rewrite Hd, Hq, Hallow.
      cbn [length Nat.eqb negb andb]. rewrite andb_false_r. reflexivity.
Qed.

(** X9. With no commit type to skip and a window that is not empty, the
    empty-release suppression never applies: on the automatic path [tryBump]
    gives no release only through a forced [patch] bump that fails. *)
Theorem tryBump_nothing_skipped :
  automatic o -> skipCommitTypes o = [] -> commits (resolved o) <> [] ->
  emitted (tryBump o) = None ->
  projectBump o = None /\ dependencyUpdatesOf o <> [] /\ truthy patched = false.
Proof.
  intros Ha Hskip Hcommits H.
  assert (Hq : (length window_commits_kept =? 0)%nat = false).
  { apply length_zero_cons. unfold window_commits_kept, qualifying.
    rewrite Hskip. unfold shouldCommitBeCalculated. cbn [existsb negb].
    destruct (commits (resolved o)); [contradiction | discriminate]. }
  rewrite (tryBump_automatic_cases Ha), Hq, andb_false_r in H. cbn [andb] in H.
  destruct (projectBump o); cbn [is_null andb] in H; [discriminate|].
  destruct (length (dependencyUpdatesOf o) =? 0)%nat eqn:Hd; cbn [negb] in H;
    [discriminate|].
  apply length_zero_cons in Hd.
  destruct (truthy patched); [discriminate|]. repeat split; assumption.
Qed.

Lemma tryBump_automatic_Some (nv : NewVersion.t) :
  automatic o -> emitted (tryBump o) = Some nv ->
  NewVersion.dependencyUpdates nv = dependencyUpdatesOf o.
Proof.
  intros Ha H. rewrite (tryBump_automatic_cases Ha) in H.
  repeat match type of H with
         | (if ?b then _ else _) = _ => destruct b
         end; try discriminate; inversion H; reflexivity.
Qed.

End Outcomes.

(** ** The dependency updates of a result *)

Section DependencyUpdates.

Context `{W : Collaborators}.

Variable o : TryBumpOptions.

Let last := resolvedLastVersion o.

Lemma dependencyVersionsOf_map :
  dependencyVersionsOf o = map (dependencyEntry o) (dependencyRoots o).
Proof. unfold dependencyVersionsOf. rewrite aggregate_map. reflexivity. Qed.

Lemma dependencyEntry_value (root : DependencyRoot) :
  let dependencyLastVersion :=
    nullish (getLastVersion (dependencyTagPrefix o root) (preid o) (releaseType o))
      initialVersion in
  dependencyEntry o root =
  Version.make dependency
    (match dependencyCommits o root with
     | [] => None
     | _ :: _ =>
         if _isInitialVersion dependencyLastVersion
         then emitted (_semverBump dependencyLastVersion (preset o) (path root)
                         (dependencyTagPrefix o root) None None None)
         else Some dependencyLastVersion
     end)
    (Some (name root)).
Proof. apply dependencyVersion_emitted. Qed.

Lemma dependencyUpdatesOf_map :
  dependencyUpdatesOf o =
  map (dependencyEntry o)
    (filter (fun root => _isNewVersion (dependencyEntry o root)) (dependencyRoots o)).
Proof.
  unfold dependencyUpdatesOf. rewrite dependencyVersionsOf_map. apply filter_map_swap.
Qed.

(** X5. A dependency that has a tagged version other than ["0.0.0"] and
    at least one qualifying commit since the primary project's range
    reference is a dependency update, at that tagged version. On the
    automatic path every result of [tryBump] lists it, and [tryBump] gives no
    release only when the primary bump is [null] and the forced [patch] bump
    fails. *)
Theorem tryBump_tagged_dependency_triggers (root : DependencyRoot) (v : string) :
  automatic o ->
  In root (dependencyRoots o) ->
  getLastVersion (dependencyTagPrefix o root) (preid o) (releaseType o) = Some v ->
  v <> "0.0.0" ->
  dependencyCommits o root <> [] ->
  let update := Version.make dependency (Some v) (Some (name root)) in
  In update (dependencyUpdatesOf o)
  /\ (forall nv, emitted (tryBump o) = Some nv -> In update (NewVersion.dependencyUpdates nv))
  /\ (emitted (tryBump o) = None ->
      projectBump o = None
      /\ truthy (emitted (_manualBump last patch (preid o))) = false).
Proof.
  intros Ha Hroot Hv Hne Hcommits update.
  assert (Hentry : dependencyEntry o root = update).
  { rewrite dependencyEntry_value. cbv zeta. rewrite Hv. cbn [nullish].
    destruct (dependencyCommits o root); [contradiction|].
    unfold _isInitialVersion.
    destruct (String.eqb_spec v initialVersion); [contradiction | reflexivity]. }
  assert (Hin : In update (dependencyUpdatesOf o)).
  { unfold dependencyUpdatesOf. apply filter_In. split.
    - rewrite dependencyVersionsOf_map, <- Hentry. apply in_map. exact Hroot.
    - unfold update, _isNewVersion. simpl.
      destruct (String.eqb_spec v initialVersion); [contradiction | reflexivity]. }
  split; [exact Hin|]. split.
  - intros nv Hnv. rewrite (tryBump_automatic_Some o nv Ha Hnv). exact Hin.
  - intros Hnone. rewrite (tryBump_automatic_cases o Ha) in Hnone.
    assert (Hd : (length (dependencyUpdatesOf o) =? 0)%nat = false).
    { apply length_zero_cons. intros E. rewrite E in Hin. destruct Hin. }
    rewrite Hd in Hnone. cbn [negb andb] in Hnone. rewrite andb_true_r in Hnone.
    destruct (projectBump o); cbn [is_null] in Hnone; [discriminate|].
    fold last in Hnone.
    destruct (truthy (emitted (_manualBump last patch (preid o)))); [discriminate|].
    split; reflexivity.
Qed.

(** X6. On the automatic path the dependency updates of a result are the
    entries of the dependency roots that pass [_isNewVersion], in the order of
    the roots and one per root at most; each is of type [dependency], carries
    the name of its root, and comes from a root with at least one qualifying
    commit since the primary project's range reference. *)
Theorem tryBump_dependencyUpdates_of_roots (nv : NewVersion.t) :
  automatic o -> emitted (tryBump o) = Some nv ->
  NewVersion.dependencyUpdates nv =
  map (dependencyEntry o)
    (filter (fun root => _isNewVersion (dependencyEntry o root)) (dependencyRoots o))
  /\ length (NewVersion.dependencyUpdates nv) <= length (dependencyRoots o)
  /\ forall d, In d (NewVersion.dependencyUpdates nv) ->
               Version.type d = dependency
               /\ exists root, In root (dependencyRoots o)
                               /\ Version.dependencyName d = Some (name root)
                               /\ dependencyCommits o root <> [].
Proof.
  intros Ha Hnv. rewrite (tryBump_automatic_Some o nv Ha Hnv), dependencyUpdatesOf_map.
  split; [reflexivity|]. split.
  - rewrite length_map. apply filter_length_le.
  - intros d Hd. apply in_map_iff in Hd. destruct Hd as [root [<- Hroot]].
    apply filter_In in Hroot. destruct Hroot as [Hroot Hnew].
    rewrite dependencyEntry_value in *. cbv zeta in *.
    split; [reflexivity|]. exists root. repeat split; [exact Hroot|].
    intros Hnil. rewrite Hnil in Hnew. discriminate.
Qed.

End DependencyUpdates.

(** ** The manual path and the options it ignores *)

Section ManualPath.

Context `{W : Collaborators}.

(** X11. On the manual path the result of [tryBump] depends on the tag
    prefix, the release type and the [preid] only: two calls that agree on
    them give the same result, whatever their project root, preset,
    dependency roots, commit types to skip and flags. *)
Theorem tryBump_manual_ignores_options (o1 o2 : TryBumpOptions) (r : ReleaseIdentifier) :
  releaseType o1 = Some r -> r <> prerelease ->
  tagPrefix o2 = tagPrefix o1 -> releaseType o2 = releaseType o1 -> preid o2 = preid o1 ->
  emitted (tryBump o2) = emitted (tryBump o1).
Proof.
  intros Hr Hne Htag Hrelease Hpreid.
  assert (Hm1 : manual_release (releaseType o1) = Some r)
    by (apply manual_release_Some; assumption).
  assert (Hm2 : manual_release (releaseType o2) = Some r)
    by (rewrite Hrelease; exact Hm1).
  rewrite (tryBump_manual o1 r Hm1), (tryBump_manual o2 r Hm2).
  assert (Hlast : resolvedLastVersion o2 = resolvedLastVersion o1).
  { unfold resolvedLastVersion, resolved. rewrite !window_lastVersion.
    rewrite Htag, Hrelease, Hpreid. reflexivity. }
  rewrite Hlast, Hpreid. reflexivity.
Qed.

End ManualPath.

(** ** The bump calculators, the classifier and the window at their edges *)

Section Edges.

Context `{W : Collaborators}.

(** X7. [_semverBump] increments by the recommended category itself
    whenever the requested release type is not [prerelease], whatever other
    release type is requested; and when [prerelease] is requested on a
    [since] that does not parse, it increments by plain [prerelease]. *)
Theorem semverBump_other_requests (since : string) (preset : PresetOpt)
    (projectRoot tagPrefix : string) (releaseType : option ReleaseIdentifier)
    (preid : option string) (skipUnstable : option bool) (c : Recommendation) :
  recommended preset projectRoot tagPrefix skipUnstable = Some c ->
  (releaseType <> Some prerelease ->
   emitted (_semverBump since preset projectRoot tagPrefix releaseType preid skipUnstable)
   = semver_inc since (plain c) preid)
  /\ (releaseType = Some prerelease -> semver_parse since = None ->
      emitted (_semverBump since preset projectRoot tagPrefix releaseType preid skipUnstable)
      = semver_inc since prerelease preid).
Proof.
  intros Hc. rewrite (semverBump_recommended _ _ _ _ _ _ _ c Hc). split.
  - intros Hne. destruct releaseType as [[]|]; try reflexivity. contradiction.
  - intros -> Hparse. simpl. unfold has_no_prerelease. rewrite Hparse. reflexivity.
Qed.

(** X8. A commit counts exactly when its parsed type is none of the
    types to skip; a commit without a type always counts, and with no type
    to skip every commit does. *)
Theorem shouldCommitBeCalculated_iff (commit : string)
    (commitParserOptions : option CommitParserOptions) (skipCommitTypes : list string) :
  let type :=
    parseConventionalCommitsSync commit (nullish commitParserOptions emptyParserOptions) in
  (shouldCommitBeCalculated commit commitParserOptions skipCommitTypes = true <->
   forall t, type = Some t -> ~ In t skipCommitTypes)
  /\ (type = None ->
      shouldCommitBeCalculated commit commitParserOptions skipCommitTypes = true)
  /\ shouldCommitBeCalculated commit commitParserOptions [] = true.
Proof.
  cbv zeta.
  assert (Hiff : shouldCommitBeCalculated commit commitParserOptions skipCommitTypes = true <->
                 forall t,
                   parseConventionalCommitsSync commit
                     (nullish commitParserOptions emptyParserOptions) = Some t ->
                   ~ In t skipCommitTypes).
  { split.
    - intros H t Ht Hin.
      assert (Hfalse : shouldCommitBeCalculated commit commitParserOptions skipCommitTypes
                       = false)
        by (apply shouldCommitBeCalculated_false; exists t; split; assumption).
      rewrite H in Hfalse. discriminate.
    - intros H.
      destruct (shouldCommitBeCalculated commit commitParserOptions skipCommitTypes) eqn:E;
        [reflexivity|].
      apply shouldCommitBeCalculated_false in E. destruct E as [t [Ht Hin]].
      exfalso. exact (H t Ht Hin). }
  split; [exact Hiff|]. split.
  - intros Hnone. apply Hiff. intros t Ht. rewrite Hnone in Ht. discriminate.
  - reflexivity.
Qed.

(** X10. A tag whose version is ["0.0.0"] is treated as no tag for the
    range reference, which is then the first commit reference, but no
    warning is logged since the lookup did not fail. *)
Theorem getProjectVersion_tag_at_initial_version (tagPrefix projectRoot : string)
    (releaseType : option ReleaseIdentifier) (since : option string)
    (projectName : string) (preid : option string) :
  getLastVersion tagPrefix preid releaseType = Some "0.0.0" ->
  let window :=
    getProjectVersion tagPrefix projectRoot releaseType since projectName preid in
  lastVersion (emitted window) = "0.0.0"
  /\ lastVersionGitRef (emitted window) = getFirstCommitRef
  /\ commits (emitted window) = getCommits projectRoot (nullish since getFirstCommitRef)
  /\ logged window = [].
Proof.
  intros H window. unfold window.
  assert (Hlast : lastVersion (emitted (getProjectVersion tagPrefix projectRoot releaseType
                                          since projectName preid)) = "0.0.0")
    by (rewrite window_lastVersion, H; reflexivity).
  assert (Href : lastVersionGitRef (emitted (getProjectVersion tagPrefix projectRoot
                                               releaseType since projectName preid))
                 = getFirstCommitRef)
    by (rewrite window_lastVersionGitRef, Hlast; reflexivity).
  repeat split.
  - exact Hlast.
  - exact Href.
  - rewrite window_commits, Href. reflexivity.
  - rewrite window_logged, H. reflexivity.
Qed.

End Edges.

(** ** The anchor of the dependency windows, and no dependency at all *)

Section Anchor.

Context `{W : Collaborators}.

Variable o : TryBumpOptions.

Let last := resolvedLastVersion o.

(** X12. The entry the aggregator emits for a dependency, as [tryBump]
    calls it, is decided by the dependency's commits since the primary
    project's range reference, whatever tag the dependency has itself: the
    first commit reference when the primary tag lookup fails, the primary
    project's formatted tag when it has a version other than ["0.0.0"]. A
    dependency with no qualifying commit since that reference is in no
    result's dependency updates, and a dependency tagged at a version other
    than ["0.0.0"] with one is in every automatic result's. *)
Theorem tryBump_dependency_anchor (root : DependencyRoot) (anchor : string) :
  (getLastVersion (tagPrefix o) (preid o) (releaseType o) = None
   /\ anchor = getFirstCommitRef)
  \/ (exists v, getLastVersion (tagPrefix o) (preid o) (releaseType o) = Some v
                /\ v <> "0.0.0" /\ anchor = formatTag (tagPrefix o) v) ->
  let kept :=
    qualifying (commitParserOptions o) (skipCommitTypes o) (getCommits (path root) anchor) in
  let dependencyLastVersion :=
    nullish (getLastVersion (dependencyTagPrefix o root) (preid o) (releaseType o))
      initialVersion in
  dependencyEntry o root =
  Version.make dependency
    (match kept with
     | [] => None
     | _ :: _ =>
         if _isInitialVersion dependencyLastVersion
         then emitted (_semverBump dependencyLastVersion (preset o) (path root)
                         (dependencyTagPrefix o root) None None None)
         else Some dependencyLastVersion
     end)
    (Some (name root))
  /\ (kept = [] ->
      forall nv, automatic o -> emitted (tryBump o) = Some nv ->
                 ~ In (dependencyEntry o root) (NewVersion.dependencyUpdates nv))
  /\ (kept <> [] -> In root (dependencyRoots o) -> dependencyLastVersion <> "0.0.0" ->
      forall nv, automatic o -> emitted (tryBump o) = Some nv ->
                 In (Version.make dependency (Some dependencyLastVersion) (Some (name root)))
                   (NewVersion.dependencyUpdates nv)).
Proof.
  intros Hanchor kept dependencyLastVersion.
  assert (Href : lastVersionGitRef (resolved o) = anchor).
  { unfold resolved. rewrite window_lastVersionGitRef, window_lastVersion.
    destruct Hanchor as [[H ->] | [v [H [Hne ->]]]]; rewrite H; [reflexivity|].
    cbn [nullish]. unfold _isInitialVersion.
    destruct (String.eqb_spec v initialVersion); [contradiction | reflexivity]. }
  assert (Hentry := dependencyEntry_value o root). cbv zeta in Hentry.
  unfold dependencyCommits in Hentry. rewrite Href in Hentry.
  fold kept dependencyLastVersion in Hentry.
  split; [exact Hentry|]. split.
  - intros Hkept nv Ha Hnv Hin.
    rewrite (tryBump_automatic_Some o nv Ha Hnv) in Hin.
    unfold dependencyUpdatesOf in Hin. apply filter_In in Hin. destruct Hin as [_ Hnew].
    rewrite Hentry, Hkept in Hnew. discriminate.
  - intros Hkept Hroot Hlast nv Ha Hnv.
    rewrite (tryBump_automatic_Some o nv Ha Hnv).
    assert (Hvalue : dependencyEntry o root =
                     Version.make dependency (Some dependencyLastVersion) (Some (name root))).
    { rewrite Hentry. destruct kept; [contradiction|].
      unfold _isInitialVersion.
      destruct (String.eqb_spec dependencyLastVersion initialVersion);
        [contradiction | reflexivity]. }
    unfold dependencyUpdatesOf. apply filter_In. split.
    + rewrite dependencyVersionsOf_map, <- Hvalue. apply in_map. exact Hroot.
    + unfold _isNewVersion. simpl.
      destruct (String.eqb_spec dependencyLastVersion initialVersion);
        [contradiction | reflexivity].
Qed.

(** X13. Without dependency roots, the automatic path forces no [patch]
    bump and looks up no other tag: [tryBump] gives no release when no commit
    of the window qualifies and [allowEmptyRelease] is not set, and otherwise
    returns the automatic bump of the primary project, or the last version
    when there is none, with no dependency update. *)
Theorem tryBump_without_dependencies :
  automatic o -> dependencyRoots o = [] ->
  emitted (tryBump o) =
  (if (length (qualifying (commitParserOptions o) (skipCommitTypes o)
                 (commits (resolved o))) =? 0)%nat
      && negb (truthy_flag (allowEmptyRelease o))
   then None
   else Some {| NewVersion.version := or_else (projectBump o) last;
                NewVersion.previousVersion := last;
                NewVersion.dependencyUpdates := [] |})
  /\ length (logged (tryBump o)) <= 1.
Proof.
  intros Ha Hroots.
  assert (Hd : dependencyUpdatesOf o = []).
  { unfold dependencyUpdatesOf. rewrite dependencyVersionsOf_map, Hroots. reflexivity. }
  split.
  - rewrite (tryBump_automatic_cases o Ha), Hd. cbn [length Nat.eqb negb andb].
    rewrite andb_false_r. reflexivity.
  - rewrite tryBump_logged, Hroots, length_app.
    destruct (untagged_project o); destruct (manual_release (releaseType o));
      simpl; lia.
Qed.

End Anchor.

(** ** The calls whose result goes below the last version *)

Section Downgrade.

Context `{W : Collaborators}.

Variable o : TryBumpOptions.

(** With the [semver] package, a [prerelease] request that restarts below
    gives a result below the last version whenever a category is recommended
    and a release is warranted: the exception in the ordering of a result is
    a real one in each of its cases. *)
Lemma tryBump_restart_below_downgrades (c : Recommendation) (v : SemVer) :
  (forall version r p, semver_inc version r p = NodeSemver.inc version r p) ->
  (forall version, semver_parse version = NodeSemver.parse version) ->
  releaseType o = Some prerelease ->
  recommended (preset o) (projectRoot o) (tagPrefix o) (skipUnstable o) = Some c ->
  NodeSemver.parse (resolvedLastVersion o) = Some v ->
  NodeSemver.restarts_below (preid o) (sv_prerelease v) = true ->
  dependencyUpdatesOf o <> []
  \/ qualifying (commitParserOptions o) (skipCommitTypes o) (commits (resolved o)) <> []
  \/ truthy_flag (allowEmptyRelease o) = true ->
  exists nv,
    emitted (tryBump o) = Some nv
    /\ NewVersion.previousVersion nv = resolvedLastVersion o
    /\ NodeSemver.compare (NewVersion.version nv) (NewVersion.previousVersion nv) = Some Lt.
Proof.
  intros Hinc Hparse Hrelease Hc Hv Hbelow Hwarranted.
  destruct (NodeSemverFacts.inc_goes_down _ v (preid o) Hv Hbelow) as [next [Hnext Hlt]].
  assert (Hp : projectBump o = Some next).
  { unfold projectBump. rewrite (semverBump_recommended _ _ _ _ _ _ _ c Hc), Hrelease.
    cbn [is_prerelease]. unfold has_no_prerelease. rewrite Hparse, Hv.
    destruct (sv_prerelease v).
    - unfold NodeSemver.restarts_below in Hbelow.
      destruct (preid_argument (preid o)); discriminate.
    - simpl. rewrite Hinc. exact Hnext. }
  assert (Hne : truthy_string next = true).
  { destruct next; [|reflexivity]. vm_compute in Hlt. discriminate. }
  exists {| NewVersion.version := next;
            NewVersion.previousVersion := resolvedLastVersion o;
            NewVersion.dependencyUpdates := dependencyUpdatesOf o |}.
  split; [|split; [reflexivity | exact Hlt]].
  rewrite (tryBump_automatic_cases o (or_intror Hrelease)), Hp.
  cbn [is_null andb or_else]. rewrite Hne.
  destruct Hwarranted as [Hd | [Hq | Hallow]].
  - apply length_zero_cons in Hd. rewrite Hd. reflexivity.
  - apply length_zero_cons in Hq. rewrite Hq, andb_false_r. reflexivity.
  - rewrite Hallow, andb_false_r. reflexivity.
Qed.

End Downgrade.

(** * The further properties on the repositories *)

Section MoreRuns.

Import Scenario MoreScenarios.

Lemma tryBump_project_bump_used_witness :
  emitted (tryBump (options untagged [] None None None)) =
  Some {| NewVersion.version := "0.1.0";
          NewVersion.previousVersion := "0.0.0";
          NewVersion.dependencyUpdates := [] |}.
Proof.
  apply (tryBump_project_bump_used (options untagged [] None None None) "0.1.0").
  - left. reflexivity.
  - reflexivity.
  - discriminate.
  - right. left. vm_compute. discriminate.
Defined.

Lemma tryBump_None_iff_witness :
  emitted (tryBump (options tagged [] None None None)) = None.
Proof.
  apply (proj2 (tryBump_None_iff (options tagged [] None None None))).
  right. right. repeat split.
  left. reflexivity.
Defined.

Lemma tryBump_logs_only_warnings_witness :
  step (@no_tag_warning "util-" "app") = "warning"
  /\ level (no_tag_warning "util-" "app") = "warn"
  /\ log_projectName (no_tag_warning "util-" "app") = "app"
  /\ (no_tag_warning "util-" "app" = no_tag_warning "app-" "app"
      \/ exists root, In root [lib; util]
                      /\ no_tag_warning "util-" "app"
                         = no_tag_warning
                             (dependencyTagPrefix (options tagged [lib; util] None None None)
                                root) "app").
Proof.
  apply (tryBump_logs_only_warnings (options tagged [lib; util] None None None)).
  vm_compute. left. reflexivity.
Defined.

Lemma tryBump_tagged_dependency_triggers_witness :
  In (Version.make dependency (Some "0.4.0") (Some "lib"))
    (dependencyUpdatesOf (options tagged [lib; util] None None None)).
Proof.
  apply (tryBump_tagged_dependency_triggers (options tagged [lib; util] None None None)
           lib "0.4.0").
  - left. reflexivity.
  - left. reflexivity.
  - reflexivity.
  - discriminate.
  - vm_compute. discriminate.
Defined.

Lemma tryBump_dependencyUpdates_of_roots_witness :
  length [Version.make dependency (Some "0.4.0") (Some "lib");
          Version.make dependency (Some "0.1.0") (Some "util")] <= length [lib; util].
Proof.
  apply (tryBump_dependencyUpdates_of_roots (options tagged [lib; util] None None None)
           {| NewVersion.version := "1.2.4";
              NewVersion.previousVersion := "1.2.3";
              NewVersion.dependencyUpdates :=
                [Version.make dependency (Some "0.4.0") (Some "lib");
                 Version.make dependency (Some "0.1.0") (Some "util")] |}).
  - left. reflexivity.
  - reflexivity.
Defined.

Lemma tryBump_manual_ignores_options_witness :
  emitted (tryBump (options tagged [] (Some major) None (Some true))) =
  emitted (tryBump (options tagged [lib; util] (Some major) None None)).
Proof.
  apply (tryBump_manual_ignores_options (options tagged [lib; util] (Some major) None None)
           (options tagged [] (Some major) None (Some true)) major);
    try reflexivity.
  discriminate.
Defined.

Lemma semverBump_other_requests_witness :
  emitted (_semverBump "1.2.3" (angular tagged) "libs/util" "util-" (Some major)
             (Some "rc") None) = Some "1.3.0".
Proof.
  apply (proj1 (semverBump_other_requests "1.2.3" (angular tagged) "libs/util" "util-"
                  (Some major) (Some "rc") None recommend_minor eq_refl)).
  discriminate.
Defined.

Lemma tryBump_nothing_skipped_witness :
  projectBump (options_skipping_nothing broken_tag [lib]) = None
  /\ dependencyUpdatesOf (options_skipping_nothing broken_tag [lib]) <> []
  /\ truthy (emitted (@_manualBump (world broken_tag)
                        (resolvedLastVersion (options_skipping_nothing broken_tag [lib]))
                        patch None)) = false.
Proof.
  apply (tryBump_nothing_skipped (options_skipping_nothing broken_tag [lib])).
  - left. reflexivity.
  - reflexivity.
  - vm_compute. discriminate.
  - reflexivity.
Defined.

Lemma getProjectVersion_tag_at_initial_version_witness :
  lastVersion (emitted (@getProjectVersion (world tagged_at_initial) "app-" "apps/app"
                          None None "app" None)) = "0.0.0"
  /\ lastVersionGitRef (emitted (@getProjectVersion (world tagged_at_initial) "app-"
                                   "apps/app" None None "app" None)) = "c0"
  /\ commits (emitted (@getProjectVersion (world tagged_at_initial) "app-" "apps/app"
                         None None "app" None)) = ["feat: first feature"]
  /\ logged (@getProjectVersion (world tagged_at_initial) "app-" "apps/app"
               None None "app" None) = [].
Proof.
  apply (@getProjectVersion_tag_at_initial_version (world tagged_at_initial) "app-"
           "apps/app" None None "app" None).
  reflexivity.
Defined.

Lemma tryBump_dependency_anchor_witness :
  dependencyEntry (options first_release [lib] None None None) lib
  = Version.make dependency (Some "0.4.0") (Some "lib").
Proof.
  apply (proj1 (tryBump_dependency_anchor (options first_release [lib] None None None)
                  lib "c0" (or_introl (conj eq_refl eq_refl)))).
Defined.

Lemma tryBump_without_dependencies_witness :
  emitted (tryBump (options tagged [] None None (Some true))) =
  Some {| NewVersion.version := "1.2.3";
          NewVersion.previousVersion := "1.2.3";
          NewVersion.dependencyUpdates := [] |}.
Proof.
  apply (proj1 (tryBump_without_dependencies (options tagged [] None None (Some true))
                  (or_introl eq_refl) eq_refl)).
Defined.

End MoreRuns.
